(** * FyreChat: the message decoding pipeline of [assets/fyrechat.js]

    A shallow embedding of the parsing, emote segmentation, badge resolution
    and badge cache code of the overlay, and the properties of its
    specification proved (or refuted) against it.

    JavaScript strings are sequences of UTF-16 code units; they are modelled
    as [list N].  JavaScript numbers are IEEE-754 doubles; a finite double is
    modelled by its exact rational value, and every arithmetic result is
    rounded to the nearest double (ties to even) by [fl]. *)

From Stdlib Require Import ZArith NArith QArith Qround Qreduction Qminmax Lia Lqa.
From Stdlib Require Import Permutation Sorted.
From stdpp Require Import base option list strings gmap.

Local Open Scope Z_scope.

(** ** JavaScript strings *)

Module Js.

(** A string literal of the source, as code units. *)
Definition lit (s : string) : list N :=
  (λ a, Ascii.N_of_ascii a) <$> String.list_ascii_of_string s.

(** The code unit of the double quote character. *)
Definition DQUOTE : N := 34%N.

(** Truthiness of a string: only the empty string is falsy. *)
Definition truthy (s : list N) : bool :=
  match s with [] => false | _ :: _ => true end.

(** [s.startsWith(pre)] *)
Fixpoint startsWith (pre s : list N) : bool :=
  match pre, s with
  | [], _ => true
  | p :: pre', c :: s' => (p =? c)%N && startsWith pre' s'
  | _ :: _, [] => false
  end.

(** [s.indexOf(needle)]: the first position at which [needle] occurs, -1
    when there is none. *)
Fixpoint indexOfFrom (needle s : list N) (i : Z) : Z :=
  if startsWith needle s then i
  else match s with
       | [] => -1
       | _ :: s' => indexOfFrom needle s' (i + 1)
       end.

Definition indexOf (needle s : list N) : Z := indexOfFrom needle s 0.

(** How [slice] resolves an integer index against the length: a negative
    index counts from the end, and everything is clamped to [0, len]. *)
Definition relIndex (len i : Z) : Z :=
  if i <? 0 then Z.max (len + i) 0 else Z.min i len.

(** [s.slice(a, b)] for integer arguments. *)
Definition slice (s : list N) (a b : Z) : list N :=
  let len := Z.of_nat (length s) in
  let from := relIndex len a in
  let to := relIndex len b in
  take (Z.to_nat (to - from)) (drop (Z.to_nat from) s).

(** [s.slice(a)]: the end defaults to the length. *)
Definition sliceFrom (s : list N) (a : Z) : list N :=
  slice s a (Z.of_nat (length s)).

(** [s.split(sep)] for a separator of one code unit, which is what every
    call of the source passes.  The result is never empty: the empty string
    splits into one empty piece. *)
Fixpoint split (sep : N) (s : list N) : list (list N) :=
  match s with
  | [] => [[]]
  | c :: s' =>
      if (c =? sep)%N then [] :: split sep s'
      else match split sep s' with
           | h :: t => (c :: h) :: t
           | [] => [[c]]
           end
  end.

(** [s.replaceAll(c, rep)] for a pattern of one code unit and a replacement
    without [$] patterns. *)
Definition replaceAll (c : N) (rep : list N) (s : list N) : list N :=
  flat_map (λ x, if (x =? c)%N then rep else [x]) s.

(** [pieces.join(sep)] *)
Fixpoint join (sep : list N) (pieces : list (list N)) : list N :=
  match pieces with
  | [] => []
  | [p] => p
  | p :: rest => p ++ sep ++ join sep rest
  end.

End Js.

(** ** JavaScript numbers *)

Module Num.

(** A number is NaN, an infinity, or a finite double given by its value.
    The two zeros are identified: nothing in the modelled code tells them
    apart. *)
Inductive number :=
| NaN
| Inf (negative : bool)
| Fin (q : Q).

Definition isFinite (x : number) : bool :=
  match x with Fin _ => true | _ => false end.

(** [n / d] rounded to the nearest integer, ties to even ([d] positive). *)
Definition rne (n d : Z) : Z :=
  let q := n / d in
  match (2 * (n mod d)) ?= d with
  | Lt => q
  | Gt => q + 1
  | Eq => if Z.even q then q else q + 1
  end.

(** The largest [c] with [2^c <= n / d], for positive [n] and [d]. *)
Definition ilog2 (n d : Z) : Z :=
  let c := Z.log2 n - Z.log2 d in
  let below := if 0 <=? c then 2 ^ c * d <=? n else d <=? n * 2 ^ (- c) in
  if below then c else c - 1.

(** Rounding of a rational to binary64, round to nearest, ties to even:
    53 significant bits, exponents from -1022 (subnormals below) to 1023,
    and an infinity when the rounded magnitude reaches [2^1024]. *)
Definition fl (x : Q) : number :=
  let x := Qred x in
  let n := Z.abs (Qnum x) in
  let d := Zpos (Qden x) in
  let neg := Qnum x <? 0 in
  if n =? 0 then Fin 0
  else
    let e := Z.max (ilog2 n d) (-1022) in
    let sh := 52 - e in
    let k := if 0 <=? sh then rne (n * 2 ^ sh) d else rne n (d * 2 ^ (- sh)) in
    if (sh <=? 0) && (2 ^ 1024 <=? k * 2 ^ (- sh)) then Inf neg
    else
      let m := if 0 <=? sh then Qred (k # Z.to_pos (2 ^ sh))
               else inject_Z (k * 2 ^ (- sh)) in
      Fin (if neg then Qopp m else m).

Definition Qltb (x y : Q) : bool := negb (Qle_bool y x).

(** [a < b] on numbers; every comparison with NaN is false. *)
Definition lt (a b : number) : bool :=
  match a, b with
  | NaN, _ | _, NaN => false
  | Inf true, Inf true => false
  | Inf true, _ => true
  | _, Inf true => false
  | Inf false, _ => false
  | Fin _, Inf false => true
  | Fin x, Fin y => Qltb x y
  end.

Definition gt (a b : number) : bool := lt b a.

Definition neg (a : number) : number :=
  match a with
  | NaN => NaN
  | Inf s => Inf (negb s)
  | Fin x => Fin (Qopp x)
  end.

(** [a + b] *)
Definition add (a b : number) : number :=
  match a, b with
  | NaN, _ | _, NaN => NaN
  | Inf s, Inf t => if eqb s t then Inf s else NaN
  | Inf s, Fin _ | Fin _, Inf s => Inf s
  | Fin x, Fin y => fl (x + y)
  end.

(** [a - b] *)
Definition sub (a b : number) : number := add a (neg b).

Definition ofZ (z : Z) : number := Fin (inject_Z z).

(** ToIntegerOrInfinity followed by [slice]'s resolution of the index
    against the length [len]. *)
Definition toIndex (len : Z) (x : number) : Z :=
  match x with
  | NaN => 0
  | Inf true => 0
  | Inf false => len
  | Fin q => Js.relIndex len (Z.quot (Qnum q) (Zpos (Qden q)))
  end.

(** [s.slice(a, b)] and [s.slice(a)] with number arguments. *)
Definition slice (s : list N) (a b : number) : list N :=
  let len := Z.of_nat (length s) in
  let from := toIndex len a in
  let to := toIndex len b in
  take (Z.to_nat (to - from)) (drop (Z.to_nat from) s).

Definition sliceFrom (s : list N) (a : number) : list N :=
  let len := Z.of_nat (length s) in
  drop (Z.to_nat (toIndex len a)) s.

(** *** [Number(string)]: the StringToNumber grammar *)

(** StrWhiteSpaceChar: WhiteSpace and LineTerminator code units. *)
Definition isWhite (c : N) : bool :=
  (bool_decide (c ∈ [9; 10; 11; 12; 13; 32; 160; 5760; 8232; 8233; 8239;
                      8287; 12288; 65279]%N)
   || ((8192 <=? c) && (c <=? 8202))%N).

Fixpoint skipWhite (s : list N) : list N :=
  match s with
  | c :: s' => if isWhite c then skipWhite s' else s
  | [] => []
  end.

Definition trim (s : list N) : list N :=
  rev (skipWhite (rev (skipWhite s))).

(** The value of a digit in the given base (letters for bases above 10). *)
Definition digitVal (base : Z) (c : N) : option Z :=
  let c := Z.of_N c in
  let v := if (48 <=? c) && (c <=? 57) then c - 48
           else if (97 <=? c) && (c <=? 122) then c - 87
           else if (65 <=? c) && (c <=? 90) then c - 55
           else base in
  if v <? base then Some v else None.

(** The longest prefix of digits, as digit values, and what follows it. *)
Fixpoint spanDigits (base : Z) (s : list N) : list Z * list N :=
  match s with
  | c :: s' =>
      match digitVal base c with
      | Some v => let '(ds, r) := spanDigits base s' in (v :: ds, r)
      | None => ([], s)
      end
  | [] => ([], [])
  end.

Definition digitsValue (base : Z) (ds : list Z) : Z :=
  fold_left (λ a d, a * base + d) ds 0.

(** [10^k] as a rational, for any integer [k]. *)
Definition pow10 (k : Z) : Q :=
  if 0 <=? k then inject_Z (10 ^ k) else 1 # Z.to_pos (10 ^ (- k)).

(** An optional sign: whether it is a minus, and what follows it. *)
Definition signOf (s : list N) : bool * list N :=
  match s with
  | c :: r =>
      if (c =? 43)%N then (false, r)
      else if (c =? 45)%N then (true, r)
      else (false, s)
  | [] => (false, s)
  end.

(** ExponentPart_opt at the end of the literal: its value, or [None] when
    what is left is not an exponent part. *)
Definition exponentPart (s : list N) : option Z :=
  match s with
  | [] => Some 0
  | c :: r =>
      if (c =? 101)%N || (c =? 69)%N then
        let '(negative, r') := signOf r in
        match spanDigits 10 r' with
        | ((_ :: _) as ds, []) =>
            Some (if negative then - digitsValue 10 ds else digitsValue 10 ds)
        | _ => None
        end
      else None
  end.

(** The fraction digits after a dot, if there is a dot, and what follows. *)
Definition fractionPart (s : list N) : list Z * list N :=
  match s with
  | c :: r => if (c =? 46)%N then spanDigits 10 r else ([], s)
  | [] => ([], s)
  end.

(** StrUnsignedDecimalLiteral without [Infinity]: digits, an optional
    fraction, an optional exponent; at least one digit before or after the
    dot. *)
Definition unsignedDecimal (s : list N) : option Q :=
  let '(ip, r1) := spanDigits 10 s in
  let '(fp, r2) := fractionPart r1 in
  match ip ++ fp with
  | [] => None
  | ds =>
      match exponentPart r2 with
      | Some e =>
          Some (inject_Z (digitsValue 10 ds) * pow10 (e - Z.of_nat (length fp)))%Q
      | None => None
      end
  end.

(** The base of a NonDecimalIntegerLiteral, from the letter after its
    [0]. *)
Definition baseOf (p : N) : option Z :=
  if (p =? 120)%N || (p =? 88)%N then Some 16
  else if (p =? 111)%N || (p =? 79)%N then Some 8
  else if (p =? 98)%N || (p =? 66)%N then Some 2
  else None.

(** NonDecimalIntegerLiteral: [0x], [0o], [0b] and their capitals, then
    digits of that base to the end.  [None] when the string does not start
    as one, [Some None] when it does and is malformed. *)
Definition nonDecimal (s : list N) : option (option Q) :=
  match s with
  | z :: p :: r =>
      if (z =? 48)%N then
        match baseOf p with
        | Some b =>
            Some match spanDigits b r with
                 | ((_ :: _) as ds, []) => Some (inject_Z (digitsValue b ds))
                 | _ => None
                 end
        | None => None
        end
      else None
  | _ => None
  end.

(** StringToNumber. *)
Definition ofString (s : list N) : number :=
  let s := trim s in
  match s with
  | [] => Fin 0
  | _ =>
      match nonDecimal s with
      | Some (Some q) => fl q
      | Some None => NaN
      | None =>
          let '(negative, body) := signOf s in
          if bool_decide (body = Js.lit "Infinity") then Inf negative
          else match unsignedDecimal body with
               | Some q => fl (if negative then Qopp q else q)
               | None => NaN
               end
      end
  end.

(** [Number(x)] where [x] is a string or [undefined] ([None]). *)
Definition Number (x : option (list N)) : number :=
  match x with
  | Some s => ofString s
  | None => NaN
  end.

End Num.

(** ** Plain objects used as dictionaries *)

Module Obj.

(** What reading a property of a plain object with string values gives: a
    string, [undefined], or something inherited from [Object.prototype]. *)
Inductive value :=
| Undefined
| Str (s : list N)
| Inherited.

(** The property names every plain object inherits. *)
Definition prototypeKeys : list (list N) :=
  Js.lit <$> ["__proto__"; "constructor"; "hasOwnProperty"; "isPrototypeOf";
              "propertyIsEnumerable"; "toLocaleString"; "toString"; "valueOf";
              "__defineGetter__"; "__defineSetter__"; "__lookupGetter__";
              "__lookupSetter__"]%string.

(** [o[k] = v] for a string [v] on an object created by [{}]; the map holds
    the own properties.  [__proto__] is an accessor of [Object.prototype]
    whose setter ignores a value that is neither an object nor null, so that
    assignment creates no property; every other inherited name is a writable
    data property and is shadowed by the assignment. *)
Definition set (k v : list N) (o : gmap (list N) (list N)) : gmap (list N) (list N) :=
  if bool_decide (k = Js.lit "__proto__") then o else <[k := v]> o.

(** [o[k]] *)
Definition get (o : gmap (list N) (list N)) (k : list N) : value :=
  match o !! k with
  | Some v => Str v
  | None => if bool_decide (k ∈ prototypeKeys) then Inherited else Undefined
  end.

(** [x || d] for a string default [d], where [x] was read by a name that is
    not inherited. *)
Definition orDefault (x : value) (d : list N) : list N :=
  match x with
  | Str s => if Js.truthy s then s else d
  | _ => d
  end.

End Obj.

(** ** UTILITIES *)

(** [escapeHtml(str)] *)
Definition escapeHtml (str : list N) : list N :=
  Js.replaceAll 39 (Js.lit "&#039;")
    (Js.replaceAll Js.DQUOTE (Js.lit "&quot;")
      (Js.replaceAll 62 (Js.lit "&gt;")
        (Js.replaceAll 60 (Js.lit "&lt;")
          (Js.replaceAll 38 (Js.lit "&amp;") str)))).

(** ** IRC PARSING: tags *)

(** One iteration of the loop of [parseTags]. *)
Definition tagStep (out : gmap (list N) (list N)) (p : list N)
  : gmap (list N) (list N) :=
  let eq := Js.indexOf (Js.lit "=") p in
  let k := if eq =? -1 then p else Js.slice p 0 eq in
  let v := if eq =? -1 then [] else Js.sliceFrom p (eq + 1) in
  Obj.set k v out.

(** [parseTags(raw)] *)
Definition parseTags (raw : list N) : gmap (list N) (list N) :=
  fold_left tagStep (Js.split 59 raw) ∅.

(** ** EMOTE RENDERING *)

Module Emote.

Record EmoteRange := {
  start : Num.number;
  end_ : Num.number;
  id : list N
}.

(** The ranges of one [start-end] entry of the group [i]: one range when
    both offsets convert to finite numbers, none otherwise. *)
Definition parseLoc (i : list N) (loc : list N) : list EmoteRange :=
  let pieces := Js.split 45 loc in
  let s := Num.Number (pieces !! 0%nat) in
  let e := Num.Number (pieces !! 1%nat) in
  if Num.isFinite s && Num.isFinite e
  then [{| start := s; end_ := e; id := i |}]
  else [].

(** The ranges of one [id:locs] group. *)
Definition parseDef (def : list N) : list EmoteRange :=
  let pieces := Js.split 58 def in
  match pieces !! 0%nat, pieces !! 1%nat with
  | Some i, Some locs =>
      if Js.truthy i && Js.truthy locs
      then flat_map (parseLoc i) (Js.split 44 locs)
      else []
  | _, _ => []
  end.

(** The first loop of [buildMessageHtmlParts]. *)
Definition parseRanges (emotesTag : list N) : list EmoteRange :=
  flat_map parseDef (filter (λ s, Is_true (Js.truthy s)) (Js.split 47 emotesTag)).

(** The comparator of the sort, [(a,b) => a.start - b.start]. *)
Definition compareFn (a b : EmoteRange) : Num.number :=
  Num.sub (start a) (start b).

(** [ranges.sort(compareFn)].  The sort is stable, and a stable sort by a
    consistent comparator has one result; it is computed here by insertion:
    an element moves behind those that compare strictly before it. *)
Fixpoint insert (r : EmoteRange) (l : list EmoteRange) : list EmoteRange :=
  match l with
  | [] => [r]
  | x :: l' =>
      if Num.gt (compareFn r x) (Num.ofZ 0) then x :: insert r l'
      else r :: l
  end.

Definition sort (l : list EmoteRange) : list EmoteRange :=
  foldr insert [] l.

(** The [<img>] element pushed for an emote. *)
Definition emoteImg (i : list N) : list N :=
  Js.lit "<img class=" ++ [Js.DQUOTE] ++ Js.lit "emote" ++ [Js.DQUOTE]
  ++ Js.lit " alt=" ++ [Js.DQUOTE; Js.DQUOTE]
  ++ Js.lit " src=" ++ [Js.DQUOTE]
  ++ Js.lit "https://static-cdn.jtvnw.net/emoticons/v2/" ++ i
  ++ Js.lit "/default/dark/1.0" ++ [Js.DQUOTE] ++ Js.lit ">".

(** One iteration of the walk over the sorted ranges: the parts pushed so
    far and the cursor. *)
Definition walkStep (text : list N)
    (st : list (list N) * Num.number) (r : EmoteRange) : list (list N) * Num.number :=
  let '(parts, cursor) := st in
  let parts :=
    if Num.gt (start r) cursor
    then parts ++ [escapeHtml (Num.slice text cursor (start r))]
    else parts in
  (parts ++ [emoteImg (id r)], Num.add (end_ r) (Num.ofZ 1)).

Definition walk (text : list N) (ranges : list EmoteRange) : list (list N) * Num.number :=
  fold_left (walkStep text) ranges ([], Num.ofZ 0).

(** [buildMessageHtmlParts(text, emotesTag)] *)
Definition buildMessageHtmlParts (text emotesTag : list N) : list (list N) :=
  if negb (Js.truthy emotesTag) then [escapeHtml text]
  else
    let ranges := parseRanges emotesTag in
    match ranges with
    | [] => [escapeHtml text]
    | _ =>
        let '(parts, cursor) := walk text (sort ranges) in
        if Num.lt cursor (Num.ofZ (Z.of_nat (length text)))
        then parts ++ [escapeHtml (Num.sliceFrom text cursor)]
        else parts
    end.

(** *** The same walk, keeping what each part is

    A part is the escaped form of a piece of the text or the image of an
    emote; [Segment] keeps the piece and the emote id, and [html] is the
    part that the source pushes for it. *)
Inductive Segment :=
| Literal (text : list N)
| EmoteRef (i : list N).

Definition html (s : Segment) : list N :=
  match s with
  | Literal t => escapeHtml t
  | EmoteRef i => emoteImg i
  end.

Definition segStep (text : list N)
    (st : list Segment * Num.number) (r : EmoteRange) : list Segment * Num.number :=
  let '(segs, cursor) := st in
  let segs :=
    if Num.gt (start r) cursor
    then segs ++ [Literal (Num.slice text cursor (start r))]
    else segs in
  (segs ++ [EmoteRef (id r)], Num.add (end_ r) (Num.ofZ 1)).

Definition segWalk (text : list N) (ranges : list EmoteRange) : list Segment * Num.number :=
  fold_left (segStep text) ranges ([], Num.ofZ 0).

Definition segments (text emotesTag : list N) : list Segment :=
  if negb (Js.truthy emotesTag) then [Literal text]
  else
    let ranges := parseRanges emotesTag in
    match ranges with
    | [] => [Literal text]
    | _ =>
        let '(segs, cursor) := segWalk text (sort ranges) in
        if Num.lt cursor (Num.ofZ (Z.of_nat (length text)))
        then segs ++ [Literal (Num.sliceFrom text cursor)]
        else segs
    end.

End Emote.

(** ** IRC PARSING: messages *)

Record ChatEvent := {
  name : list N;
  color : list N;
  htmlParts : list (list N);
  badges : list N;
  roomId : list N
}.

(** The tags and the working line after the optional [@] prefix.  When the
    line has no space, [indexOf] gives -1: the tags are read from
    [slice(1, -1)] and the working line is [slice(0)], the whole line. *)
Definition splitTags (line : list N) : gmap (list N) (list N) * list N :=
  if Js.startsWith (Js.lit "@") line then
    let spaceIdx := Js.indexOf (Js.lit " ") line in
    (parseTags (Js.slice line 1 spaceIdx), Js.sliceFrom line (spaceIdx + 1))
  else (∅, line).

(** [parsePrivmsg(line)]; [None] is the [null] result. *)
Definition parsePrivmsg (line : list N) : option ChatEvent :=
  let '(tags, rest) := splitTags line in
  let msgIdx := Js.indexOf (Js.lit " :") rest in
  if msgIdx =? -1 then None
  else
    let text := Js.sliceFrom rest (msgIdx + 2) in
    let name := Obj.orDefault (Obj.get tags (Js.lit "display-name")) (Js.lit "Unknown") in
    let color := Obj.orDefault (Obj.get tags (Js.lit "color")) (Js.lit "#ffffff") in
    let emotes := Obj.orDefault (Obj.get tags (Js.lit "emotes")) [] in
    let badges := Obj.orDefault (Obj.get tags (Js.lit "badges")) [] in
    let roomId := Obj.orDefault (Obj.get tags (Js.lit "room-id")) [] in
    let htmlParts := Emote.buildMessageHtmlParts text emotes in
    Some {| name := name; color := color; htmlParts := htmlParts;
            badges := badges; roomId := roomId |}.

(** ** BADGES *)

Module Badge.

(** A badge table, a [Map] from ["set/version"] to what [buildBadgeMap]
    stored for it: a URL string, or [undefined] ([None]) when the version
    carries no image URL. *)
Abbreviation table := (gmap (list N) (option (list N))).

(** The records of a Helix badge response ([helixJson.data]). *)
Record version := {
  v_id : list N;
  image_url_2x : option (list N);
  image_url_1x : option (list N)
}.

Record badgeSet := {
  set_id : list N;
  versions : list version
}.

(** Truthiness of a string or [undefined]. *)
Definition truthy (x : option (list N)) : bool :=
  match x with
  | Some s => Js.truthy s
  | None => false
  end.

(** [a || b] *)
Definition orElse (a b : option (list N)) : option (list N) :=
  if truthy a then a else b.

(** [map.get(key)]: [undefined] for a key that is not there. *)
Definition mapGet (m : table) (key : list N) : option (list N) :=
  match m !! key with
  | Some v => v
  | None => None
  end.

(** [buildBadgeMap(helixJson)], from the [data] of the response. *)
Definition buildBadgeMap (data : list badgeSet) : table :=
  fold_left
    (λ map set,
       fold_left
         (λ map v,
            <[set_id set ++ Js.lit "/" ++ v_id v
              := orElse (image_url_2x v) (image_url_1x v)]> map)
         (versions set) map)
    data ∅.

(** The badge caches: [global] is [null] ([None]) until the global table
    has been stored. *)
Record badgeCache := {
  global : option table;
  channels : gmap (list N) table;
  globalLoaded : bool
}.

Definition emptyCache : badgeCache :=
  {| global := None; channels := ∅; globalLoaded := false |}.

(** [buildBadgesFragment(keys, broadcasterId)]: the [src] of the images
    appended to the fragment, in order. *)
Definition buildBadgesFragment (badgeCache : badgeCache)
    (keys : list (list N)) (broadcasterId : list N) : list (list N) :=
  let globalMap := default ∅ (global badgeCache) in
  let chanMap :=
    if Js.truthy broadcasterId
    then default ∅ (channels badgeCache !! broadcasterId)
    else ∅ in
  flat_map
    (λ key,
       match orElse (mapGet chanMap key) (mapGet globalMap key) with
       | Some url => if Js.truthy url then [url] else []
       | None => []
       end)
    keys.

(** *** [ensureBadgesLoaded] and the event loop

    An invocation of the async function runs until it reaches an [await],
    stays suspended until the awaited promise settles, and then runs to the
    next [await] or to its return; nothing else runs in between.  Several
    invocations can be suspended at once: [addMessage] is called for every
    line of a frame without being awaited. *)

Inductive endpoint :=
| GlobalBadges
| ChannelBadges (broadcasterId : list N).

#[global] Instance endpoint_eq_dec : EqDecision endpoint.
Proof. solve_decision. Defined.

(** Where an invocation is suspended. *)
Inductive point :=
| AwaitGlobalFetch
| AwaitGlobalJson
| AwaitChannelFetch
| AwaitChannelJson
| Returned.

Record task := {
  broadcasterId : list N;
  at_ : point
}.

(** How an awaited promise settles: it rejects (a network error, a body
    that is not JSON), [fetch] resolves with a response that is [ok] or
    not, or [r.json()] resolves with the records of the body. *)
Inductive settlement :=
| Rejected
| Response (ok : bool)
| Body (data : list badgeSet).

Inductive event :=
| Call (broadcasterId : list N)
| Settle (t : nat) (s : settlement).

Record world := {
  cache : badgeCache;
  tasks : list task;
  fetches : list endpoint
}.

Definition start : world :=
  {| cache := emptyCache; tasks := []; fetches := [] |}.

(** [encodeURIComponent] throws a URIError on a lone surrogate; it returns
    for every well-formed string. *)
Fixpoint wellFormed (s : list N) : bool :=
  match s with
  | [] => true
  | c :: s' =>
      if ((55296 <=? c) && (c <=? 56319))%N then
        match s' with
        | d :: s'' => ((56320 <=? d) && (d <=? 57343))%N && wellFormed s''
        | [] => false
        end
      else if ((56320 <=? c) && (c <=? 57343))%N then false
      else wellFormed s'
  end.

Definition setGlobal (t : table) (c : badgeCache) : badgeCache :=
  {| global := Some t; channels := channels c; globalLoaded := globalLoaded c |}.

Definition setChannel (b : list N) (t : table) (c : badgeCache) : badgeCache :=
  {| global := global c; channels := <[b := t]> (channels c);
     globalLoaded := globalLoaded c |}.

Definition markGlobalLoaded (c : badgeCache) : badgeCache :=
  {| global := global c; channels := channels c; globalLoaded := true |}.

(** The channel part of [ensureBadgesLoaded], from [if (!broadcasterId)]
    on, run by the invocation of [b] up to its next suspension: the cache,
    the fetches issued, and where the invocation is then. *)
Definition channelPart (b : list N) (c : badgeCache)
  : badgeCache * list endpoint * point :=
  if negb (Js.truthy b) then (c, [], Returned)
  else if bool_decide (is_Some (channels c !! b)) then (c, [], Returned)
  else if wellFormed b then (c, [ChannelBadges b], AwaitChannelFetch)
  else (setChannel b ∅ c, [], Returned).

(** [ensureBadgesLoaded(b)] from its first line to its first suspension. *)
Definition enter (badgeProxy : list N) (b : list N) (c : badgeCache)
  : badgeCache * list endpoint * point :=
  if negb (Js.truthy badgeProxy) then (c, [], Returned)
  else if negb (globalLoaded c)
  then (markGlobalLoaded c, [GlobalBadges], AwaitGlobalFetch)
  else channelPart b c.

(** The invocation of [b] suspended at [p] resumes with the settlement
    [s]; [None] when [s] is not a settlement of what [p] awaits. *)
Definition resume (b : list N) (p : point) (s : settlement) (c : badgeCache)
  : option (badgeCache * list endpoint * point) :=
  match p, s with
  | AwaitGlobalFetch, Response true => Some (c, [], AwaitGlobalJson)
  | AwaitGlobalFetch, (Response false | Rejected) =>
      Some (channelPart b (setGlobal ∅ c))
  | AwaitGlobalJson, Body data =>
      Some (channelPart b (setGlobal (buildBadgeMap data) c))
  | AwaitGlobalJson, Rejected => Some (channelPart b (setGlobal ∅ c))
  | AwaitChannelFetch, Response true => Some (c, [], AwaitChannelJson)
  | AwaitChannelFetch, (Response false | Rejected) =>
      Some (setChannel b ∅ c, [], Returned)
  | AwaitChannelJson, Body data =>
      Some (setChannel b (buildBadgeMap data) c, [], Returned)
  | AwaitChannelJson, Rejected => Some (setChannel b ∅ c, [], Returned)
  | _, _ => None
  end.

(** One turn of the event loop. *)
Definition step (badgeProxy : list N) (w : world) (e : event) : world :=
  match e with
  | Call b =>
      let '(c, fs, p) := enter badgeProxy b (cache w) in
      {| cache := c;
         tasks := tasks w ++ [{| broadcasterId := b; at_ := p |}];
         fetches := fetches w ++ fs |}
  | Settle t s =>
      match tasks w !! t with
      | Some tk =>
          match resume (broadcasterId tk) (at_ tk) s (cache w) with
          | Some (c, fs, p) =>
              {| cache := c;
                 tasks := <[t := {| broadcasterId := broadcasterId tk; at_ := p |}]> (tasks w);
                 fetches := fetches w ++ fs |}
          | None => w
          end
      | None => w
      end
  end.

Definition run (badgeProxy : list N) (w : world) (es : list event) : world :=
  fold_left (step badgeProxy) es w.

(** How many fetches of an endpoint have been issued. *)
Definition issued (e : endpoint) (w : world) : nat :=
  length (filter (λ x, x = e) (fetches w)).

End Badge.

(** ** Notions used to state the properties *)

(** The entity that stands for a code unit, or the code unit itself. *)
Definition entity (c : N) : list N :=
  if (c =? 38)%N then Js.lit "&amp;"
  else if (c =? 60)%N then Js.lit "&lt;"
  else if (c =? 62)%N then Js.lit "&gt;"
  else if (c =? 34)%N then Js.lit "&quot;"
  else if (c =? 39)%N then Js.lit "&#039;"
  else [c].


(** [t] occurs in [text] as a contiguous piece. *)
Definition substring (t text : list N) : Prop :=
  ∃ pre post, text = pre ++ t ++ post.

(** What follows the first space of a string, if it has one. *)
Fixpoint afterFirstSpace (s : list N) : option (list N) :=
  match s with
  | [] => None
  | c :: s' => if (c =? 32)%N then Some s' else afterFirstSpace s'
  end.

(** The working portion of a protocol line, in the words of the
    specification: a line that starts with [@] loses its tag prefix up to
    the first space; any other line, and a line without a space, is taken
    whole. *)
Definition workingPortion (line : list N) : list N :=
  match line with
  | 64%N :: _ => default line (afterFirstSpace line)
  | _ => line
  end.

(** A tag blob in the words of the specification: segments [k=v], or [k]
    alone for a segment without [=], joined by [;]. *)
Definition renderTag (t : list N * option (list N)) : list N :=
  match t.2 with
  | Some v => t.1 ++ [61%N] ++ v
  | None => t.1
  end.

Definition renderTags (tags : list (list N * option (list N))) : list N :=
  Js.join [59%N] (renderTag <$> tags).

(** Keys hold neither [;] nor [=], values hold no [;]. *)
Definition tagOk (t : list N * option (list N)) : Prop :=
  (59%N ∉ t.1) ∧ (61%N ∉ t.1) ∧ ∀ v, t.2 = Some v → 59%N ∉ v.

(** The value of the last segment with key [k]; a segment without [=] has
    the empty string as its value. *)
Fixpoint lastValue (k : list N) (tags : list (list N * option (list N)))
  : option (list N) :=
  match tags with
  | [] => None
  | t :: rest =>
      match lastValue k rest with
      | Some v => Some v
      | None => if bool_decide (t.1 = k) then Some (default [] t.2) else None
      end
  end.

(** The non-empty URL that a table holds for a key, if it holds one. *)
Definition usable (m : Badge.table) (key : list N) : option (list N) :=
  match m !! key with
  | Some (Some url) => if Js.truthy url then Some url else None
  | _ => None
  end.

(** The channel table that a resolution for the room [b] consults. *)
Definition channelTable (c : Badge.badgeCache) (b : list N) : Badge.table :=
  if Js.truthy b then default ∅ (Badge.channels c !! b) else ∅.

Definition globalTable (c : Badge.badgeCache) : Badge.table :=
  default ∅ (Badge.global c).

(** Channel table first, global table otherwise. *)
Definition resolved (c : Badge.badgeCache) (b key : list N) : option (list N) :=
  match usable (channelTable c b) key with
  | Some url => Some url
  | None => usable (globalTable c) key
  end.

(** What one turn of the event loop can do to the cache and to the list of
    fetches. *)
Record turn (c c' : Badge.badgeCache) (fs : list Badge.endpoint) : Prop := {
  turn_channels : ∀ b, is_Some (Badge.channels c !! b) →
                       is_Some (Badge.channels c' !! b);
  turn_loaded : Badge.globalLoaded c = true → Badge.globalLoaded c' = true;
  turn_channel_fetch : ∀ b, Badge.ChannelBadges b ∈ fs →
                            Badge.channels c !! b = None;
  turn_global_fetch : Badge.GlobalBadges ∈ fs →
                      Badge.globalLoaded c = false ∧ Badge.globalLoaded c' = true;
  turn_flag : Badge.globalLoaded c' = true →
              Badge.globalLoaded c = true ∨ Badge.GlobalBadges ∈ fs;
  turn_one : (length fs <= 1)%nat
}.

(** *** Well-formed emote specifications and coverage *)

(** A range with integer offsets and its emote id, as the parser builds it. *)
Definition mkRange (t : Z * Z * list N) : Emote.EmoteRange :=
  {| Emote.start := Num.ofZ t.1.1; Emote.end_ := Num.ofZ t.1.2; Emote.id := t.2 |}.
















(** The emote ids of the segments, in order. *)
Definition emoteRefs (segs : list Emote.Segment) : list (list N) :=
  omap (λ s, match s with Emote.EmoteRef i => Some i | Emote.Literal _ => None end) segs.

(** *** Well-formed specifications as text

    A specification before it is written out: groups of an emote id and its
    entries, each offset given by its decimal digits. *)

Definition digitsText (ds : list Z) : list N := (λ d, Z.to_N (48 + d)) <$> ds.

Definition entryText (e : list Z * list Z) : list N :=
  digitsText e.1 ++ 45%N :: digitsText e.2.

Definition groupText (g : list N * list (list Z * list Z)) : list N :=
  g.1 ++ 58%N :: Js.join [44%N] (entryText <$> g.2).

Definition specText (gs : list (list N * list (list Z * list Z))) : list N :=
  Js.join [47%N] (groupText <$> gs).

Definition entryRange (i : list N) (e : list Z * list Z) : Z * Z * list N :=
  (Num.digitsValue 10 e.1, Num.digitsValue 10 e.2, i).

(** The ranges that the specification denotes, in the order of the text. *)
Definition specRanges (gs : list (list N * list (list Z * list Z)))
  : list (Z * Z * list N) :=
  flat_map (λ g, entryRange g.1 <$> g.2) gs.

Definition digitsOk (ds : list Z) : Prop :=
  ds ≠ [] ∧ Forall (λ d, 0 <= d <= 9) ds.

(** A group has an id, without the separators [/] and [:], and at least
    one entry of two offsets. *)
Definition groupOk (g : list N * list (list Z * list Z)) : Prop :=
  g.1 ≠ [] ∧ (47%N ∉ g.1) ∧ (58%N ∉ g.1) ∧ g.2 ≠ []
  ∧ Forall (λ e, digitsOk e.1 ∧ digitsOk e.2) g.2.

(** The offsets of a group denote numbers below [2^53]. *)
Definition groupBelow (g : list N * list (list Z * list Z)) : Prop :=
  Forall (λ e, Num.digitsValue 10 e.1 < 2 ^ 53 ∧ Num.digitsValue 10 e.2 < 2 ^ 53) g.2.

(** The code units of the decimal digits. *)
Definition isDigit (c : N) : Prop := (48 <= c <= 57)%N.

(** *** The invocations that wait for the global table *)

Definition awaitsGlobal (tk : Badge.task) : bool :=
  match Badge.at_ tk with
  | Badge.AwaitGlobalFetch | Badge.AwaitGlobalJson => true
  | _ => false
  end.

(** At most one invocation waits for the global table, and only while the
    flag is set and the table is not there yet. *)
Record globalInv (w : Badge.world) : Prop := {
  inv_waiting : ∀ i tk, Badge.tasks w !! i = Some tk → awaitsGlobal tk = true →
      Badge.globalLoaded (Badge.cache w) = true
      ∧ Badge.global (Badge.cache w) = None
      ∧ ∀ j tk', Badge.tasks w !! j = Some tk' → awaitsGlobal tk' = true → j = i;
  inv_unloaded : Badge.globalLoaded (Badge.cache w) = false →
      Badge.global (Badge.cache w) = None
}.

(** * Further functions of the source *)

(** ** Configuration: [clampInt], [clampFloat], the badge proxy *)

Module Config.

(** *** The text of a number

    [Number::toString] in radix 10, which [Array.prototype.join] applies
    to the numbers of an array. *)

(** The largest [c] with [10^c <= q], for a positive double [q]; the
    estimate from the binary exponent is off by one at most. *)
Definition ilog10 (q : Q) : Z :=
  let c := (Num.ilog2 (Qnum q) (Zpos (Qden q)) * 1233) / 4096 in
  if Qle_bool (Num.pow10 (c + 1)) q then c + 1
  else if Qle_bool (Num.pow10 c) q then c
  else c - 1.

Fixpoint digitsFrom (fuel : nat) (n : Z) (acc : list N) : list N :=
  match fuel with
  | O => acc
  | S fuel' =>
      let acc := (48 + Z.to_N (n mod 10))%N :: acc in
      if n <? 10 then acc else digitsFrom fuel' (n / 10) acc
  end.

(** The decimal digits of a natural number, the most significant first. *)
Definition decimal (n : Z) : list N :=
  digitsFrom (S (Z.to_nat (Z.log2 n))) n [].

(** The decimal [s * 10^p] converts to the double [q]. *)
Definition readsAs (q : Q) (s p : Z) : bool :=
  match Num.fl (inject_Z s * Num.pow10 p) with
  | Num.Fin r => Qeq_bool r q
  | _ => false
  end.

(** The integers [s] and [n] with [10^(k-1) <= s < 10^k] such that
    [s * 10^(n-k)] converts to [q], when there are any, where
    [10^(e-1) <= q < 10^e]: the decimal of [k] digits next below [q] or
    the one next above; of the two the closer to [q], and the even one
    when they are as close. *)
Definition withDigits (q : Q) (e k : Z) : option (Z * Z) :=
  let p := e - k in
  let below := Qfloor (q / Num.pow10 p) in
  let above := below + 1 in
  let up := if above =? 10 ^ k then (10 ^ (k - 1), e + 1) else (above, e) in
  match readsAs q below p, readsAs q above p with
  | true, true =>
      let dBelow := (q - inject_Z below * Num.pow10 p)%Q in
      let dAbove := (inject_Z above * Num.pow10 p - q)%Q in
      if Num.Qltb dBelow dAbove then Some (below, e)
      else if Num.Qltb dAbove dBelow then Some up
      else if Z.even below then Some (below, e) else Some up
  | true, false => Some (below, e)
  | false, true => Some up
  | false, false => None
  end.

(** The least number of digits [k], from [k] on, for which there are such
    [s] and [n]. *)
Fixpoint fewestDigits (fuel : nat) (q : Q) (e k : Z) : Z * Z * Z :=
  match withDigits q e k with
  | Some (s, n) => (s, k, n)
  | None =>
      match fuel with
      | O => (Qfloor (q / Num.pow10 (e - k)), k, e)
      | S fuel' => fewestDigits fuel' q e (k + 1)
      end
  end.

(** [s], [k] and [n] for a positive double: 17 digits tell any two doubles
    apart. *)
Definition shortest (q : Q) : Z * Z * Z :=
  fewestDigits 16 q (ilog10 q + 1) 1.

(** [Number::toString(x)] *)
Definition numberToString (x : Num.number) : list N :=
  match x with
  | Num.NaN => Js.lit "NaN"
  | Num.Inf negative =>
      (if negative then Js.lit "-" else []) ++ Js.lit "Infinity"
  | Num.Fin q =>
      if Qeq_bool q 0 then Js.lit "0"
      else
        let negative := Num.Qltb q 0 in
        let '(s, k, n) := shortest (if negative then Qopp q else q) in
        let ds := decimal s in
        let body :=
          if (k <=? n) && (n <=? 21)
          then ds ++ replicate (Z.to_nat (n - k)) 48%N
          else if (0 <? n) && (n <=? 21)
          then take (Z.to_nat n) ds ++ Js.lit "." ++ drop (Z.to_nat n) ds
          else if (-6 <? n) && (n <=? 0)
          then Js.lit "0." ++ replicate (Z.to_nat (- n)) 48%N ++ ds
          else
            (if k =? 1 then ds else take 1 ds ++ Js.lit "." ++ drop 1 ds)
            ++ Js.lit "e" ++ (if n - 1 <? 0 then Js.lit "-" else Js.lit "+")
            ++ decimal (Z.abs (n - 1)) in
        (if negative then Js.lit "-" else []) ++ body
  end.

(** *** Configuration values *)

(** A value of a configuration entry: a primitive, or an array or an
    object as [JSON.parse] builds them from the defaults file.  Such an
    object has own data properties only, none of them a function, and the
    prototype [Object.prototype]; such an array has no hole and the
    prototype [Array.prototype]. *)
Inductive value :=
| VUndefined
| VNull
| VBool (b : bool)
| VNum (n : Num.number)
| VStr (s : list N)
| VArr (items : list value)
| VObj (props : list (list N * value)).

(** The object has an own property of this name. *)
Definition hasOwn (props : list (list N * value)) (name : list N) : bool :=
  bool_decide (name ∈ props.*1).

(** [String(v)], [None] when it throws a [TypeError].  An array is joined
    with commas, [undefined] and [null] giving the empty text.  An object
    gives ["[object Object]"] through the inherited [toString]; an own
    [toString] is not callable, and then [valueOf] is tried, which either
    is an own property, not callable, or gives the object back: no
    primitive is found. *)
Fixpoint toString (v : value) : option (list N) :=
  match v with
  | VUndefined => Some (Js.lit "undefined")
  | VNull => Some (Js.lit "null")
  | VBool b => Some (if b then Js.lit "true" else Js.lit "false")
  | VNum n => Some (numberToString n)
  | VStr s => Some s
  | VArr items =>
      Js.join (Js.lit ",")
        <$> mapM (λ x, match x with
                       | VUndefined | VNull => Some []
                       | _ => toString x
                       end) items
  | VObj props =>
      if hasOwn props (Js.lit "toString") then None
      else Some (Js.lit "[object Object]")
  end.

(** [Number(value)], [None] when it throws.  An array or an object is
    first converted to a primitive with the hint [number]: [valueOf] gives
    no primitive (see [toString]), so it is the text of the value that is
    read as a number. *)
Definition toNumber (v : value) : option Num.number :=
  match v with
  | VUndefined => Some Num.NaN
  | VNull => Some (Num.ofZ 0)
  | VBool b => Some (Num.ofZ (if b then 1 else 0))
  | VNum n => Some n
  | VStr s => Some (Num.ofString s)
  | VArr _ | VObj _ => Num.ofString <$> toString v
  end.

(** The values whose conversion throws: an object with an own property
    [toString], and an array that holds such a value, at any depth. *)
Inductive raises : value → Prop :=
| raises_obj props :
    Js.lit "toString" ∈ props.*1 → raises (VObj props)
| raises_arr items x :
    x ∈ items → raises x → raises (VArr items).

(** [Math.floor(x)]; the floor of a double is a double. *)
Definition floor (x : Num.number) : Num.number :=
  match x with
  | Num.Fin q => Num.ofZ (Qfloor q)
  | _ => x
  end.

(** [Math.min(a, b)] and [Math.max(a, b)]: NaN when an argument is. *)
Definition mathMin (a b : Num.number) : Num.number :=
  match a, b with
  | Num.NaN, _ | _, Num.NaN => Num.NaN
  | _, _ => if Num.lt b a then b else a
  end.

Definition mathMax (a b : Num.number) : Num.number :=
  match a, b with
  | Num.NaN, _ | _, Num.NaN => Num.NaN
  | _, _ => if Num.lt a b then b else a
  end.

(** [clampInt(value, fallback, min, max)], [None] when [Number(value)]
    throws. *)
Definition clampInt (value : value) (fallback min max : Num.number)
  : option Num.number :=
  n ← toNumber value;
  if negb (Num.isFinite n) then Some fallback
  else
    let i := floor n in
    Some (mathMax min (mathMin max i)).

(** [clampFloat(value, fallback, min, max)], [None] when [Number(value)]
    throws. *)
Definition clampFloat (value : value) (fallback min max : Num.number)
  : option Num.number :=
  n ← toNumber value;
  if negb (Num.isFinite n) then Some fallback
  else Some (mathMax min (mathMin max n)).

(** The leading code units equal to [c] removed. *)
Fixpoint skipChar (c : N) (s : list N) : list N :=
  match s with
  | x :: s' => if (x =? c)%N then skipChar c s' else s
  | [] => []
  end.

(** [s.replace(/\/+$/, "")] for a string [s]: the first match of the
    pattern is the whole run of slashes that the string ends with. *)
Definition stripSlashes (s : list N) : list N :=
  rev (skipChar 47 (rev s)).

End Config.

(** ** BADGES: the keys of a message *)

(** [parseBadgesTag(badgesTag)]; [trim] removes the same code units as
    the white space of [Number]. *)
Definition parseBadgesTag (badgesTag : list N) : list (list N) :=
  if negb (Js.truthy badgesTag) then []
  else filter (λ s, Is_true (Js.truthy s)) (Num.trim <$> Js.split 44 badgesTag).

(** ** TWITCH IRC CONNECTION: the message handler *)

(** [data.split("\r\n")] *)
Fixpoint splitCrLf (s : list N) : list (list N) :=
  match s with
  | [] => [[]]
  | c :: s' =>
      let more :=
        match splitCrLf s' with
        | h :: t => (c :: h) :: t
        | [] => [[c]]
        end in
      match s' with
      | d :: s'' => if (c =? 13)%N && (d =? 10)%N then [] :: splitCrLf s'' else more
      | [] => more
      end
  end.

(** [s.includes(needle)] *)
Definition includes (needle s : list N) : bool :=
  negb (Js.indexOf needle s =? -1).

(** What the handler of the socket's [message] event does with a frame: it
    answers a frame that starts with [PING] and looks no further, or it
    calls [addMessage] for the lines that pass the filter and parse. *)
Inductive reaction :=
| Pong
| Messages (events : list ChatEvent).

Definition onMessage (data : list N) : reaction :=
  if Js.startsWith (Js.lit "PING") data then Pong
  else
    let lines := filter (λ s, Is_true (Js.truthy s)) (splitCrLf data) in
    Messages
      (omap parsePrivmsg
         (filter (λ line, Is_true (includes (Js.lit " PRIVMSG #") line)) lines)).

(** ** RENDERING: the stack of messages *)

(** [while ($stack.children.length > max) $stack.removeChild($stack.firstChild)]
    for a limit [max] that is not negative. *)
Fixpoint trimStack {A} (max : Z) (stack : list A) : list A :=
  match stack with
  | [] => []
  | _ :: rest =>
      if max <? Z.of_nat (length stack) then trimStack max rest else stack
  end.

(** [$stack.appendChild(el)] followed by the loop. *)
Definition appendMessage {A} (max : Z) (stack : list A) (el : A) : list A :=
  trimStack max (stack ++ [el]).

(** The value that the parser takes for the tag [k]: that of the last
    segment with this key when it is not empty, the default otherwise. *)
Definition tagOr (tags : list (list N * option (list N))) (k d : list N) : list N :=
  match lastValue k tags with
  | Some v => if Js.truthy v then v else d
  | None => d
  end.

(** A badge key as a message carries it: not empty, without a comma, and
    without white space at either end. *)
Definition cleanKey (k : list N) : Prop :=
  k ≠ [] ∧ (44%N ∉ k)
  ∧ (∀ c, head k = Some c → Num.isWhite c = false)
  ∧ (∀ c, last k = Some c → Num.isWhite c = false).

(** The entries of a badge response in the order of the document: the key
    ["set/version"] and the URL kept for it, the 2x image when it has one. *)
Definition badgeEntries (data : list Badge.badgeSet)
  : list (list N * option (list N)) :=
  flat_map
    (λ set, (λ v, (Badge.set_id set ++ Js.lit "/" ++ Badge.v_id v,
                   Badge.orElse (Badge.image_url_2x v) (Badge.image_url_1x v)))
            <$> Badge.versions set)
    data.

(** What the last entry with the key [key] holds. *)
Fixpoint lastEntry (key : list N) (entries : list (list N * option (list N)))
  : option (option (list N)) :=
  match entries with
  | [] => None
  | e :: rest =>
      match lastEntry key rest with
      | Some v => Some v
      | None => if bool_decide (e.1 = key) then Some e.2 else None
      end
  end.

(** *** Requests that do not overlap *)

(** The invocation waits for a channel fetch or for its body. *)
Definition awaitsChannel (tk : Badge.task) : bool :=
  match Badge.at_ tk with
  | Badge.AwaitChannelFetch | Badge.AwaitChannelJson => true
  | _ => false
  end.

(** No invocation for the room [b] has a channel fetch in flight. *)
Definition noChannelWait (b : list N) (w : Badge.world) : Prop :=
  ∀ i tk, Badge.tasks w !! i = Some tk → Badge.broadcasterId tk = b →
          awaitsChannel tk = false.

(** Every invocation has returned. *)
Definition quiet (w : Badge.world) : Prop :=
  Forall (λ tk, Badge.at_ tk = Badge.Returned) (Badge.tasks w).

(** The calls of [es] are made one after the other: each when every
    earlier invocation has returned. *)
Fixpoint oneAtATime (badgeProxy : list N) (w : Badge.world) (es : list Badge.event) : Prop :=
  match es with
  | [] => True
  | e :: rest =>
      match e with
      | Badge.Call _ => quiet w
      | Badge.Settle _ _ => True
      end
      ∧ oneAtATime badgeProxy (Badge.step badgeProxy w e) rest
  end.

(** The settlements of a fetch that is answered with an error status
    ([None]), or with a body. *)
Definition settlements (o : option (list Badge.badgeSet)) : list Badge.settlement :=
  match o with
  | Some data => [Badge.Response true; Badge.Body data]
  | None => [Badge.Response false]
  end.

(** The table that the fetch leaves in its slot. *)
Definition tableOf (o : option (list Badge.badgeSet)) : Badge.table :=
  match o with
  | Some data => Badge.buildBadgeMap data
  | None => ∅
  end.

(** What holds while the calls are made one at a time: at most one
    invocation has not returned, no channel endpoint was fetched twice,
    and a channel endpoint that was fetched has its table or the
    invocation that waits for it. *)
Record seqInv (w : Badge.world) : Prop := {
  seq_one : ∀ i j tki tkj,
      Badge.tasks w !! i = Some tki → Badge.tasks w !! j = Some tkj →
      Badge.at_ tki ≠ Badge.Returned → Badge.at_ tkj ≠ Badge.Returned → i = j;
  seq_count : ∀ b, (Badge.issued (Badge.ChannelBadges b) w <= 1)%nat;
  seq_owner : ∀ b, Badge.issued (Badge.ChannelBadges b) w = 1%nat →
      is_Some (Badge.channels (Badge.cache w) !! b)
      ∨ ∃ i tk, Badge.tasks w !! i = Some tk ∧ Badge.broadcasterId tk = b
                ∧ awaitsChannel tk = true
}.

(** * Properties *)

(** ** Escaping *)

Ltac not_in_list :=
  rewrite ?elem_of_cons, ?elem_of_nil; lia.

Ltac no_fetch :=
  intros;
  match goal with
  | H : _ ∈ [] |- _ => by apply elem_of_nil in H
  | H : _ ∈ [_] |- _ => apply list_elem_of_singleton in H; discriminate
  end.

Lemma replaceAll_app c rep s t :
  Js.replaceAll c rep (s ++ t) = Js.replaceAll c rep s ++ Js.replaceAll c rep t.
Proof. unfold Js.replaceAll. apply flat_map_app. Qed.

Lemma escapeHtml_app s t : escapeHtml (s ++ t) = escapeHtml s ++ escapeHtml t.
Proof. unfold escapeHtml. by rewrite !replaceAll_app. Qed.

Lemma escapeHtml_cons c s : escapeHtml (c :: s) = entity c ++ escapeHtml s.
Proof.
  change (c :: s) with ([c] ++ s). rewrite escapeHtml_app. f_equal.
  unfold entity.
  destruct (N.eqb_spec c 38) as [->|H1]; [reflexivity|].
  destruct (N.eqb_spec c 60) as [->|H2]; [reflexivity|].
  destruct (N.eqb_spec c 62) as [->|H3]; [reflexivity|].
  destruct (N.eqb_spec c 34) as [->|H4]; [reflexivity|].
  destruct (N.eqb_spec c 39) as [->|H5]; [reflexivity|].
  unfold escapeHtml, Js.replaceAll, Js.DQUOTE. simpl.
  apply N.eqb_neq in H1, H2, H3, H4, H5.
  rewrite H1. simpl. rewrite H2. simpl. rewrite H3. simpl.
  rewrite H4. simpl. rewrite H5. reflexivity.
Qed.

Lemma escapeHtml_entities s : escapeHtml s = flat_map entity s.
Proof.
  induction s as [|c s IH]; [reflexivity|].
  rewrite escapeHtml_cons, IH. reflexivity.
Qed.

Lemma entity_safe c : Forall (λ x, x ∉ [60; 62; 34; 39]%N) (entity c).
Proof.
  assert (Hlit : ∀ l : list N,
    Forall (λ x, x ≠ 60 ∧ x ≠ 62 ∧ x ≠ 34 ∧ x ≠ 39)%N l →
    Forall (λ x, x ∉ [60; 62; 34; 39]%N) l).
  { intros l H. eapply Forall_impl; [exact H|]. intros x (?&?&?&?). not_in_list. }
  unfold entity.
  destruct (N.eqb_spec c 38); [apply Hlit; vm_compute (Js.lit _); repeat constructor; lia|].
  destruct (N.eqb_spec c 60); [apply Hlit; vm_compute (Js.lit _); repeat constructor; lia|].
  destruct (N.eqb_spec c 62); [apply Hlit; vm_compute (Js.lit _); repeat constructor; lia|].
  destruct (N.eqb_spec c 34); [apply Hlit; vm_compute (Js.lit _); repeat constructor; lia|].
  destruct (N.eqb_spec c 39); [apply Hlit; vm_compute (Js.lit _); repeat constructor; lia|].
  apply Hlit. repeat constructor; lia.
Qed.

Lemma escapeHtml_safe s : Forall (λ x, x ∉ [60; 62; 34; 39]%N) (escapeHtml s).
Proof.
  induction s as [|c s IH]; [constructor|].
  rewrite escapeHtml_cons. apply Forall_app. split; [apply entity_safe|done].
Qed.

(** ** The segmenter: parts and segments *)

Lemma substring_take_drop n m (l : list N) : substring (take n (drop m l)) l.
Proof.
  exists (take m l), (drop n (drop m l)).
  by rewrite take_drop, take_drop.
Qed.

Lemma substring_drop m (l : list N) : substring (drop m l) l.
Proof.
  exists (take m l), []. by rewrite app_nil_r, take_drop.
Qed.

Lemma substring_refl (l : list N) : substring l l.
Proof. exists [], []. by rewrite app_nil_r. Qed.

Lemma walk_segWalk_from text rs segs cursor :
  fold_left (Emote.walkStep text) rs (Emote.html <$> segs, cursor)
  = (Emote.html <$> (fold_left (Emote.segStep text) rs (segs, cursor)).1,
     (fold_left (Emote.segStep text) rs (segs, cursor)).2).
Proof.
  revert segs cursor. induction rs as [|r rs IH]; intros segs cursor; [reflexivity|].
  simpl. destruct (Num.gt (Emote.start r) cursor).
  - rewrite <- IH. by rewrite !fmap_app.
  - rewrite <- IH. by rewrite !fmap_app.
Qed.

Lemma parts_of_segments text emotesTag :
  Emote.buildMessageHtmlParts text emotesTag
  = Emote.html <$> Emote.segments text emotesTag.
Proof.
  unfold Emote.buildMessageHtmlParts, Emote.segments.
  destruct (negb (Js.truthy emotesTag)); [reflexivity|].
  destruct (Emote.parseRanges emotesTag) as [|r rs]; [reflexivity|].
  unfold Emote.walk, Emote.segWalk.
  pose proof (walk_segWalk_from text (Emote.sort (r :: rs)) [] (Num.ofZ 0)) as Hw.
  simpl fmap in Hw. rewrite Hw. clear Hw.
  destruct (fold_left _ _ _) as [segs cursor]. simpl.
  destruct (Num.lt cursor _); [|reflexivity].
  by rewrite fmap_app.
Qed.

(** Every literal accumulated by the walk is a piece of the text. *)
Lemma segWalk_literals text rs segs cursor :
  (∀ t, Emote.Literal t ∈ segs → substring t text) →
  ∀ t, Emote.Literal t ∈ (fold_left (Emote.segStep text) rs (segs, cursor)).1 →
       substring t text.
Proof.
  revert segs cursor. induction rs as [|r rs IH]; intros segs cursor Hsegs; [exact Hsegs|].
  simpl. apply IH. intros t Ht.
  apply elem_of_app in Ht as [Ht|Ht]; [|by apply list_elem_of_singleton in Ht].
  destruct (Num.gt (Emote.start r) cursor); [|by apply Hsegs].
  apply elem_of_app in Ht as [Ht|Ht]; [by apply Hsegs|].
  apply list_elem_of_singleton in Ht. injection Ht as ->.
  apply substring_take_drop.
Qed.

Lemma segments_literals text emotesTag t :
  Emote.Literal t ∈ Emote.segments text emotesTag → substring t text.
Proof.
  unfold Emote.segments.
  destruct (negb (Js.truthy emotesTag)).
  { intros Ht. apply list_elem_of_singleton in Ht. injection Ht as ->. apply substring_refl. }
  destruct (Emote.parseRanges emotesTag) as [|r rs].
  { intros Ht. apply list_elem_of_singleton in Ht. injection Ht as ->. apply substring_refl. }
  unfold Emote.segWalk.
  pose proof (segWalk_literals text (Emote.sort (r :: rs)) [] (Num.ofZ 0)) as Hw.
  destruct (fold_left _ _ _) as [segs cursor]. simpl in Hw.
  assert (Hsegs : ∀ t, Emote.Literal t ∈ segs → substring t text).
  { apply Hw. intros t' Ht'. by apply elem_of_nil in Ht'. }
  destruct (Num.lt cursor _); [|by apply Hsegs].
  intros Ht. apply elem_of_app in Ht as [Ht|Ht]; [by apply Hsegs|].
  apply list_elem_of_singleton in Ht. injection Ht as ->.
  apply substring_drop.
Qed.


(** C9: every literal part pushed by the segmenter is the escaped form of a
    piece of the message text; escaping replaces each of the five special
    characters by its entity, so a literal part holds no raw [<] or [>]
    (nor a quote). *)
Theorem literal_parts_escaped (text emotesTag : list N) :
  Emote.buildMessageHtmlParts text emotesTag
  = Emote.html <$> Emote.segments text emotesTag
  ∧ (∀ s, escapeHtml s = flat_map entity s)
  ∧ ∀ t, Emote.Literal t ∈ Emote.segments text emotesTag →
      substring t text
      ∧ Emote.html (Emote.Literal t) = escapeHtml t
      ∧ Forall (λ c, c ∉ [60; 62; 34; 39]%N) (Emote.html (Emote.Literal t)).
Proof.
  split; [apply parts_of_segments|].
  split; [apply escapeHtml_entities|].
  intros t Ht. split; [by eapply segments_literals|].
  split; [reflexivity|]. apply escapeHtml_safe.
Qed.


(** ** String primitives *)

Lemma startsWith_prefix pre s :
  Js.startsWith pre s = true ↔ ∃ post, s = pre ++ post.
Proof.
  revert s. induction pre as [|p pre IH]; intros s; simpl.
  - split; [intros _; by exists s|done].
  - destruct s as [|c s].
    + split; [done|]. intros [post H]. discriminate.
    + rewrite andb_true_iff, N.eqb_eq, IH. split.
      * intros [-> [post ->]]. by exists post.
      * intros [post H]. injection H as -> ->. split; [done|by exists post].
Qed.

Lemma indexOfFrom_lower needle s i : 0 <= i → Js.indexOfFrom needle s i = -1 ∨ i <= Js.indexOfFrom needle s i.
Proof.
  revert i. induction s as [|c s IH]; intros i Hi; simpl.
  - destruct (Js.startsWith needle []); [right; lia|by left].
  - destruct (Js.startsWith needle (c :: s)); [right; lia|].
    destruct (IH (i + 1)) as [->|?]; [lia|by left|right; lia].
Qed.

Lemma indexOfFrom_none needle s i :
  0 <= i → Js.indexOfFrom needle s i = -1 ↔ ¬ substring needle s.
Proof.
  revert i. induction s as [|c s IH]; intros i Hi; simpl.
  - destruct (Js.startsWith needle []) eqn:Hp.
    + split; [lia|]. intros Hn. exfalso. apply Hn.
      apply startsWith_prefix in Hp as [post Hp]. by exists [], post.
    + split; [|done]. intros _ (pre & post & H).
      destruct pre; [|discriminate]. simpl in H.
      assert (Js.startsWith needle [] = true); [|congruence].
      apply startsWith_prefix. by exists post.
  - destruct (Js.startsWith needle (c :: s)) eqn:Hp.
    + split; [lia|]. intros Hn. exfalso. apply Hn.
      apply startsWith_prefix in Hp as [post Hp]. by exists [], post.
    + rewrite IH by lia. split.
      * intros Hn (pre & post & H). destruct pre as [|x pre].
        -- assert (Js.startsWith needle (c :: s) = true); [|congruence].
           apply startsWith_prefix. by exists post.
        -- injection H as -> ->. apply Hn. by exists pre, post.
      * intros Hn (pre & post & ->). apply Hn. by exists (c :: pre), post.
Qed.

Lemma indexOf_none needle s :
  Js.indexOf needle s = -1 ↔ ¬ substring needle s.
Proof. by apply indexOfFrom_none. Qed.

Lemma indexOfFrom_char_notin c s i : c ∉ s → Js.indexOfFrom [c] s i = -1.
Proof.
  revert i. induction s as [|x s IH]; intros i Hc; [reflexivity|].
  apply not_elem_of_cons in Hc as [Hx Hs]. simpl.
  destruct (N.eqb_spec c x); [done|]. simpl. by apply IH.
Qed.

Lemma indexOfFrom_char_first c pre post i :
  c ∉ pre → Js.indexOfFrom [c] (pre ++ c :: post) i = i + Z.of_nat (length pre).
Proof.
  revert i. induction pre as [|x pre IH]; intros i Hc; simpl.
  - rewrite N.eqb_refl. simpl. lia.
  - apply not_elem_of_cons in Hc as [Hx Hs].
    destruct (N.eqb_spec c x); [done|]. simpl. rewrite IH by done. lia.
Qed.

(** A string either lacks a code unit or splits at its first occurrence. *)
Lemma first_occurrence (c : N) (s : list N) :
  c ∉ s ∨ ∃ pre post, s = pre ++ c :: post ∧ c ∉ pre.
Proof.
  induction s as [|x s IH].
  - left. apply not_elem_of_nil.
  - destruct (decide (x = c)) as [->|Hx].
    + right. exists [], s. split; [done|apply not_elem_of_nil].
    + destruct IH as [IH|(pre & post & -> & Hpre)].
      * left. apply not_elem_of_cons. by split.
      * right. exists (x :: pre), post. split; [done|].
        apply not_elem_of_cons. by split.
Qed.

Lemma relIndex_in_range len i : 0 <= i <= len → Js.relIndex len i = i.
Proof.
  intros H. unfold Js.relIndex.
  destruct (Z.ltb_spec i 0); lia.
Qed.

Lemma sliceFrom_zero s : Js.sliceFrom s 0 = s.
Proof.
  unfold Js.sliceFrom, Js.slice.
  rewrite !relIndex_in_range by lia.
  simpl. rewrite Z.sub_0_r, Nat2Z.id. apply firstn_all.
Qed.

Lemma sliceFrom_app pre post :
  Js.sliceFrom (pre ++ post) (Z.of_nat (length pre)) = post.
Proof.
  unfold Js.sliceFrom, Js.slice. rewrite length_app.
  rewrite !relIndex_in_range by lia.
  rewrite Nat2Z.id, drop_app_length.
  replace (Z.to_nat _) with (length post) by lia. apply firstn_all.
Qed.

Lemma slice_prefix pre post :
  Js.slice (pre ++ post) 0 (Z.of_nat (length pre)) = pre.
Proof.
  unfold Js.slice. rewrite length_app.
  rewrite !relIndex_in_range by lia.
  simpl. rewrite Z.sub_0_r, Nat2Z.id.
  apply take_app_length.
Qed.

(** ** The message parser *)

Lemma afterFirstSpace_none s : afterFirstSpace s = None → 32%N ∉ s.
Proof.
  induction s as [|c s IH]; simpl; [intros _; apply not_elem_of_nil|].
  destruct (N.eqb_spec c 32); [done|]. intros H.
  apply not_elem_of_cons. split; [done|by apply IH].
Qed.

Lemma afterFirstSpace_some s post :
  afterFirstSpace s = Some post → ∃ pre, s = pre ++ 32%N :: post ∧ 32%N ∉ pre.
Proof.
  induction s as [|c s IH]; simpl; [done|].
  destruct (N.eqb_spec c 32) as [->|Hc].
  - intros [= ->]. exists []. split; [done|apply not_elem_of_nil].
  - intros H. destruct (IH H) as (pre & -> & Hpre).
    exists (c :: pre). split; [done|]. apply not_elem_of_cons. by split.
Qed.

(** The working line of the code is the working portion of the
    specification. *)
Lemma splitTags_workingPortion line : (splitTags line).2 = workingPortion line.
Proof.
  unfold splitTags, workingPortion.
  destruct line as [|c line]; [reflexivity|].
  change (Js.startsWith (Js.lit "@") (c :: line)) with ((64 =? c)%N && true).
  destruct (N.eqb_spec 64 c) as [<-|Hc].
  2:{ simpl. destruct c as [|p]; [done|]. do 7 (destruct p as [p|p|]; try done). }
  change (Js.lit " ") with [32%N]. unfold Js.indexOf.
  cbn [andb snd afterFirstSpace N.eqb Pos.eqb].
  destruct (afterFirstSpace line) as [post|] eqn:Hs.
  - apply afterFirstSpace_some in Hs as (pre & -> & Hpre).
    cbn [default].
    change (64%N :: pre ++ 32%N :: post) with ((64%N :: pre) ++ 32%N :: post).
    rewrite indexOfFrom_char_first.
    2:{ apply not_elem_of_cons. split; [lia|done]. }
    replace (0 + Z.of_nat (length (64%N :: pre)) + 1)
      with (Z.of_nat (length ((64%N :: pre) ++ [32%N]))).
    2:{ rewrite length_app. simpl. lia. }
    rewrite (cons_middle 32%N (64%N :: pre) post), (assoc_L (++)).
    apply sliceFrom_app.
  - apply afterFirstSpace_none in Hs. cbn [default].
    rewrite indexOfFrom_char_notin.
    2:{ apply not_elem_of_cons. split; [lia|done]. }
    apply sliceFrom_zero.
Qed.

Lemma parsePrivmsg_none line :
  parsePrivmsg line = None ↔ ¬ substring (Js.lit " :") (workingPortion line).
Proof.
  rewrite <- splitTags_workingPortion, <- indexOf_none.
  unfold parsePrivmsg. destruct (splitTags line) as [tags rest]. simpl.
  destruct (Z.eqb_spec (Js.indexOf (Js.lit " :") rest) (-1)); [done|].
  split; [done|]. intros ?. done.
Qed.

(** C6: a line whose working portion does not contain the marker [" :"]
    produces no event: the parser returns [null], and it is a total
    function, so nothing is raised. *)
Theorem no_marker_no_event (line : list N) :
  ¬ substring (Js.lit " :") (workingPortion line) →
  parsePrivmsg line = None.
Proof. apply parsePrivmsg_none. Qed.

Lemma no_marker_no_event_witness :
  let line := Js.lit "@room-id=42;emotes= JOIN #ch" in
  workingPortion line = Js.lit "JOIN #ch" ∧ parsePrivmsg line = None.
Proof.
  split; [reflexivity|].
  apply (no_marker_no_event (Js.lit "@room-id=42;emotes= JOIN #ch")).
  apply indexOf_none. vm_compute. reflexivity.
Defined.

(** ** The tag decoder *)

Lemma split_notin sep s : sep ∉ s → Js.split sep s = [s].
Proof.
  induction s as [|c s IH]; [reflexivity|].
  intros H. apply not_elem_of_cons in H as [Hc Hs]. simpl.
  destruct (N.eqb_spec c sep); [done|]. by rewrite IH.
Qed.

Lemma split_app sep p rest :
  sep ∉ p → Js.split sep (p ++ sep :: rest) = p :: Js.split sep rest.
Proof.
  induction p as [|c p IH]; intros H; simpl.
  - by rewrite N.eqb_refl.
  - apply not_elem_of_cons in H as [Hc Hp].
    destruct (N.eqb_spec c sep); [done|]. by rewrite IH.
Qed.

Lemma split_join sep pieces :
  pieces ≠ [] → Forall (λ p, sep ∉ p) pieces →
  Js.split sep (Js.join [sep] pieces) = pieces.
Proof.
  induction pieces as [|p pieces IH]; [done|].
  intros _ H. apply Forall_cons in H as [Hp Hrest].
  destruct pieces as [|q pieces]; [by apply split_notin|].
  change (Js.join [sep] (p :: q :: pieces))
    with (p ++ sep :: Js.join [sep] (q :: pieces)).
  rewrite split_app by done. f_equal. by apply IH.
Qed.

Lemma tagStep_render out t :
  61%N ∉ t.1 → tagStep out (renderTag t) = Obj.set t.1 (default [] t.2) out.
Proof.
  destruct t as [k [v|]]; unfold tagStep, renderTag, Js.indexOf; simpl; intros Hk.
  - change (Js.lit "=") with [61%N].
    rewrite indexOfFrom_char_first by done.
    destruct (Z.eqb_spec (0 + Z.of_nat (length k)) (-1)); [lia|].
    rewrite Z.add_0_l, slice_prefix. f_equal.
    replace (Z.of_nat (length k) + 1) with (Z.of_nat (length (k ++ [61%N]))).
    2:{ rewrite length_app. simpl. lia. }
    rewrite (cons_middle 61%N k v), (assoc_L (++)). apply sliceFrom_app.
  - change (Js.lit "=") with [61%N].
    by rewrite indexOfFrom_char_notin.
Qed.

Lemma renderTag_no_semicolon t : tagOk t → 59%N ∉ renderTag t.
Proof.
  destruct t as [k [v|]]; unfold tagOk, renderTag; simpl; intros (Hk & _ & Hv); [|done].
  rewrite not_elem_of_app. split; [done|].
  apply not_elem_of_cons. split; [lia|by apply Hv].
Qed.

Lemma set_lookup_ne k v out k' :
  k' ≠ Js.lit "__proto__" →
  Obj.set k v out !! k' = if bool_decide (k = k') then Some v else out !! k'.
Proof.
  intros Hk'. unfold Obj.set.
  destruct (bool_decide_reflect (k = Js.lit "__proto__")) as [->|Hk].
  - by rewrite bool_decide_eq_false_2.
  - destruct (bool_decide_reflect (k = k')) as [->|Hne].
    + apply lookup_insert_eq.
    + by apply lookup_insert_ne.
Qed.

Lemma set_lookup_proto k v out :
  Obj.set k v out !! Js.lit "__proto__" = out !! Js.lit "__proto__".
Proof.
  unfold Obj.set.
  destruct (bool_decide_reflect (k = Js.lit "__proto__")) as [->|Hk]; [done|].
  by apply lookup_insert_ne.
Qed.

Lemma fold_tags_lookup tags out k :
  Forall tagOk tags → k ≠ Js.lit "__proto__" →
  fold_left tagStep (renderTag <$> tags) out !! k
  = match lastValue k tags with Some v => Some v | None => out !! k end.
Proof.
  intros Hok Hk. revert out.
  induction Hok as [|t tags Ht Hok IH]; intros out; [reflexivity|].
  simpl. rewrite IH. destruct (lastValue k tags); [done|].
  rewrite tagStep_render by apply Ht.
  rewrite set_lookup_ne by done. by destruct (bool_decide (t.1 = k)).
Qed.

Lemma fold_tags_proto pieces out :
  fold_left tagStep pieces out !! Js.lit "__proto__" = out !! Js.lit "__proto__".
Proof.
  revert out. induction pieces as [|p pieces IH]; intros out; [done|].
  simpl. rewrite IH. apply set_lookup_proto.
Qed.

Lemma lastValue_elem k tags : k ∈ tags.*1 → is_Some (lastValue k tags).
Proof.
  induction tags as [|t tags IH]; simpl; [by intros ?%elem_of_nil|].
  intros [->|H]%elem_of_cons.
  - destruct (lastValue t.1 tags); [done|]. by rewrite bool_decide_eq_true_2.
  - destruct (IH H) as [v ->]. done.
Qed.

Lemma parseTags_render tags :
  tags ≠ [] → Forall tagOk tags →
  parseTags (renderTags tags) = fold_left tagStep (renderTag <$> tags) ∅.
Proof.
  intros Hne Hok. unfold parseTags, renderTags.
  rewrite split_join; [done|by destruct tags|].
  apply Forall_fmap. eapply Forall_impl; [exact Hok|].
  intros t Ht. by apply renderTag_no_semicolon.
Qed.

(** Decoding a blob and looking a key of the blob up gives the value of
    the last segment with that key, the empty string for a segment
    without [=], for every key but [__proto__]: the assignment
    [out[k] = v] on a plain object does not store that one. *)
Theorem tag_lookup (tags : list (list N * option (list N))) (k : list N) :
  Forall tagOk tags → k ∈ tags.*1 →
  (k ≠ Js.lit "__proto__" →
   ∃ v, lastValue k tags = Some v
        ∧ Obj.get (parseTags (renderTags tags)) k = Obj.Str v)
  ∧ Obj.get (parseTags (renderTags tags)) (Js.lit "__proto__") = Obj.Inherited.
Proof.
  intros Hok Hin.
  assert (Hne : tags ≠ []) by (intros ->; by apply elem_of_nil in Hin).
  rewrite parseTags_render by done. split.
  - intros Hk. destruct (lastValue_elem k tags Hin) as [v Hv].
    exists v. split; [done|]. unfold Obj.get.
    by rewrite fold_tags_lookup, Hv.
  - unfold Obj.get. rewrite fold_tags_proto, lookup_empty. reflexivity.
Qed.

Lemma tag_lookup_witness :
  let tags := [(Js.lit "color", Some (Js.lit "#112233")); (Js.lit "turbo", None);
               (Js.lit "color", Some (Js.lit "a=b"))] in
  renderTags tags = Js.lit "color=#112233;turbo;color=a=b"
  ∧ Obj.get (parseTags (renderTags tags)) (Js.lit "color") = Obj.Str (Js.lit "a=b")
  ∧ Obj.get (parseTags (renderTags tags)) (Js.lit "turbo") = Obj.Str [].
Proof.
  intros tags.
  assert (Hok : Forall tagOk tags).
  { repeat constructor; simpl; try (intros v [= <-]); vm_compute (Js.lit _);
      not_in_list. }
  split; [reflexivity|]. split.
  - destruct (tag_lookup tags (Js.lit "color") Hok) as [H _].
    { vm_compute. left. }
    destruct H as (v & Hv & ->); [by vm_compute|].
    vm_compute in Hv. by injection Hv as <-.
  - destruct (tag_lookup tags (Js.lit "turbo") Hok) as [H _].
    { vm_compute. right. left. }
    destruct H as (v & Hv & ->); [by vm_compute|].
    vm_compute in Hv. by injection Hv as <-.
Defined.

(** C5: the decoder assigns every key of the blob, [constructor] and the
    other names of the prototype included, but the blob
    [__proto__=x;constructor=y] decodes to an object whose [__proto__] is
    not the string [x]: the assignment to that key of a plain object is
    lost, and the lookup gives the inherited prototype. *)
Theorem proto_tag_not_stored :
  let tags := [(Js.lit "__proto__", Some (Js.lit "x"));
               (Js.lit "constructor", Some (Js.lit "y"))] in
  renderTags tags = Js.lit "__proto__=x;constructor=y"
  ∧ Forall tagOk tags
  ∧ lastValue (Js.lit "__proto__") tags = Some (Js.lit "x")
  ∧ lastValue (Js.lit "constructor") tags = Some (Js.lit "y")
  ∧ Obj.get (parseTags (renderTags tags)) (Js.lit "constructor")
    = Obj.Str (Js.lit "y")
  ∧ Obj.get (parseTags (renderTags tags)) (Js.lit "__proto__") = Obj.Inherited
  ∧ Obj.get (parseTags (renderTags tags)) (Js.lit "__proto__")
    ≠ Obj.Str (Js.lit "x").
Proof.
  intros tags. split; [reflexivity|]. split.
  { repeat constructor; simpl; try (intros v [= <-]); vm_compute (Js.lit _);
      not_in_list. }
  split; [reflexivity|]. split; [reflexivity|].
  split; [vm_compute; reflexivity|]. split; [vm_compute; reflexivity|].
  vm_compute. discriminate.
Qed.

(** ** The badge resolver *)

Lemma omap_length_le {A B} (f : A → option B) (l : list A) :
  (length (omap f l) <= length l)%nat.
Proof.
  induction l as [|x l IH]; csimpl; [lia|].
  destruct (f x); csimpl; lia.
Qed.

Lemma flat_map_option_list {A B} (f : A → option B) (l : list A) :
  flat_map (λ x, option_list (f x)) l = omap f l.
Proof.
  induction l as [|x l IH]; [reflexivity|].
  csimpl. rewrite IH. by destruct (f x).
Qed.

Lemma resolved_key c b key :
  match Badge.orElse (Badge.mapGet (channelTable c b) key)
                     (Badge.mapGet (globalTable c) key) with
  | Some url => if Js.truthy url then [url] else []
  | None => []
  end = option_list (resolved c b key).
Proof.
  unfold resolved, usable, Badge.orElse, Badge.mapGet, Badge.truthy.
  destruct (channelTable c b !! key) as [[u|]|];
    destruct (globalTable c !! key) as [[g|]|]; simpl;
    try destruct (Js.truthy u) eqn:Hu; try destruct (Js.truthy g) eqn:Hg;
    rewrite ?Hu, ?Hg; reflexivity.
Qed.

Lemma buildBadgesFragment_resolved c keys b :
  Badge.buildBadgesFragment c keys b = omap (resolved c b) keys.
Proof.
  rewrite <- flat_map_option_list.
  unfold Badge.buildBadgesFragment.
  change (if Js.truthy b then default ∅ (Badge.channels c !! b) else ∅)
    with (channelTable c b).
  change (default ∅ (Badge.global c)) with (globalTable c).
  induction keys as [|key keys IH]; [reflexivity|].
  simpl. by rewrite IH, resolved_key.
Qed.

(** C4, as amended: the fragment holds, in the order of the keys, the
    channel table's URL for a key when that URL is not empty, otherwise the
    global table's URL when that one is not empty, and nothing for a key
    with no non-empty URL in either table; it is no longer than the keys. *)
Theorem badge_resolution (c : Badge.badgeCache) (keys : list (list N)) (b : list N) :
  Badge.buildBadgesFragment c keys b = omap (resolved c b) keys
  ∧ (length (Badge.buildBadgesFragment c keys b) <= length keys)%nat
  ∧ (∀ key url, usable (channelTable c b) key = Some url →
       resolved c b key = Some url)
  ∧ (∀ key, usable (channelTable c b) key = None →
       resolved c b key = usable (globalTable c) key)
  ∧ (∀ key, channelTable c b !! key = None → globalTable c !! key = None →
       resolved c b key = None).
Proof.
  split; [apply buildBadgesFragment_resolved|].
  split; [rewrite buildBadgesFragment_resolved; apply omap_length_le|].
  unfold resolved. split; [by intros key url ->|].
  split; [by intros key ->|].
  intros key Hc Hg. unfold usable. by rewrite Hc, Hg.
Qed.

(** C4 as stated fails when the channel table holds an empty URL: the cache
    below is what a successful fetch of each table leaves, the key is in
    both tables, and the resolution gives the global table's value. *)
Lemma badge_precedence_counterexample :
  let room := Js.lit "42" in
  let key := Js.lit "subscriber/6" in
  let blank := {| Badge.v_id := Js.lit "6"; Badge.image_url_2x := Some [];
                  Badge.image_url_1x := Some [] |} in
  let good := {| Badge.v_id := Js.lit "6";
                 Badge.image_url_2x := Some (Js.lit "https://g/6.png");
                 Badge.image_url_1x := None |} in
  let body v := Badge.Body [{| Badge.set_id := Js.lit "subscriber";
                               Badge.versions := [v] |}] in
  let w := Badge.run (Js.lit "https://proxy") Badge.start
             [Badge.Call room;
              Badge.Settle 0 (Badge.Response true); Badge.Settle 0 (body good);
              Badge.Settle 0 (Badge.Response true); Badge.Settle 0 (body blank)] in
  channelTable (Badge.cache w) room !! key = Some (Some [])
  ∧ globalTable (Badge.cache w) !! key = Some (Some (Js.lit "https://g/6.png"))
  ∧ Badge.buildBadgesFragment (Badge.cache w) [key] room = [Js.lit "https://g/6.png"]
  ∧ Badge.buildBadgesFragment (Badge.cache w) [key] room ≠ [[]].
Proof.
  vm_compute. repeat split; discriminate.
Qed.

(** ** The badge cache and the event loop *)

Lemma insert_is_Some (m : gmap (list N) Badge.table) b t b' :
  is_Some (m !! b') → is_Some (<[b := t]> m !! b').
Proof.
  intros H. destruct (decide (b = b')) as [->|Hne].
  - by rewrite lookup_insert_eq.
  - by rewrite lookup_insert_ne.
Qed.

Lemma turn_refl c : turn c c [].
Proof. constructor; [done|done|no_fetch|no_fetch|by left|simpl; lia]. Qed.

Lemma channelPart_turn b c c0 :
  (∀ b', is_Some (Badge.channels c0 !! b') → is_Some (Badge.channels c !! b')) →
  Badge.globalLoaded c = Badge.globalLoaded c0 →
  turn c0 (Badge.channelPart b c).1.1 (Badge.channelPart b c).1.2.
Proof.
  intros Hch Hl. unfold Badge.channelPart.
  destruct (negb (Js.truthy b)); simpl.
  { constructor; [done|congruence|no_fetch|no_fetch|left; congruence|simpl; lia]. }
  destruct (bool_decide_reflect (is_Some (Badge.channels c !! b))) as [Hs|Hs]; simpl.
  { constructor; [done|congruence|no_fetch|no_fetch|left; congruence|simpl; lia]. }
  destruct (Badge.wellFormed b); simpl.
  - constructor; [done|congruence| |no_fetch|left; congruence|simpl; lia].
    intros b' H. apply list_elem_of_singleton in H. injection H as ->.
    destruct (Badge.channels c0 !! b) eqn:E; [|done].
    exfalso. apply Hs, Hch. by rewrite E.
  - constructor; [|simpl; congruence|no_fetch|no_fetch|simpl; left; congruence|simpl; lia].
    intros b' H. simpl. by apply insert_is_Some, Hch.
Qed.

Lemma enter_turn proxy b c :
  turn c (Badge.enter proxy b c).1.1 (Badge.enter proxy b c).1.2.
Proof.
  unfold Badge.enter.
  destruct (negb (Js.truthy proxy)); [apply turn_refl|].
  destruct (Badge.globalLoaded c) eqn:Hl; simpl.
  - by apply channelPart_turn.
  - constructor; [done|done|no_fetch| |right; left|simpl; lia].
    by rewrite Hl.
Qed.

Lemma resume_turn b p s c r :
  Badge.resume b p s c = Some r → turn c r.1.1 r.1.2.
Proof.
  assert (Hset : ∀ t, turn c (Badge.setChannel b t c) []).
  { intros t. constructor; [|done|no_fetch|no_fetch|by left|simpl; lia].
    intros b' H. simpl. by apply insert_is_Some. }
  destruct p, s as [| [|] |data]; simpl; intros [= <-]; simpl;
    try apply turn_refl; try apply Hset; by apply channelPart_turn.
Qed.

Lemma step_turn proxy w e :
  ∃ fs, Badge.fetches (Badge.step proxy w e) = Badge.fetches w ++ fs
        ∧ turn (Badge.cache w) (Badge.cache (Badge.step proxy w e)) fs.
Proof.
  destruct e as [b|t s]; simpl.
  - pose proof (enter_turn proxy b (Badge.cache w)) as H.
    destruct (Badge.enter proxy b (Badge.cache w)) as [[c fs] p]. by exists fs.
  - destruct (Badge.tasks w !! t) as [tk|].
    2:{ exists []. split; [by rewrite app_nil_r|apply turn_refl]. }
    destruct (Badge.resume _ _ _ _) as [[[c fs] p]|] eqn:Hr.
    2:{ exists []. split; [by rewrite app_nil_r|apply turn_refl]. }
    exists fs. split; [done|]. apply (resume_turn _ _ _ _ _ Hr).
Qed.

Lemma issued_app e w fs :
  length (filter (λ x, x = e) (Badge.fetches w ++ fs))
  = (Badge.issued e w + length (filter (λ x, x = e) fs))%nat.
Proof. unfold Badge.issued. by rewrite filter_app, length_app. Qed.

Lemma filter_none_length {A} (P : A → Prop) `{∀ x, Decision (P x)} (l : list A) :
  (∀ x, x ∈ l → ¬ P x) → length (filter P l) = 0%nat.
Proof.
  intros Hl. induction l as [|x l IH]; [reflexivity|].
  rewrite filter_cons_False; [|apply Hl; left].
  apply IH. intros y Hy. apply Hl. by right.
Qed.

(** The global table is fetched at most once, whatever the calls and the
    settlements, and not at all after [globalLoaded] is set. *)
Lemma global_fetch_once proxy w es :
  Badge.issued Badge.GlobalBadges w
  = (if Badge.globalLoaded (Badge.cache w) then 1 else 0)%nat →
  Badge.issued Badge.GlobalBadges (Badge.run proxy w es)
  = (if Badge.globalLoaded (Badge.cache (Badge.run proxy w es)) then 1 else 0)%nat.
Proof.
  revert w. induction es as [|e es IH]; intros w Hw; [done|].
  simpl. apply IH.
  destruct (step_turn proxy w e) as (fs & Hfs & Ht).
  unfold Badge.issued at 1. rewrite Hfs, issued_app, Hw.
  destruct (decide (Badge.GlobalBadges ∈ fs)) as [Hin|Hnin].
  - destruct (turn_global_fetch _ _ _ Ht Hin) as [-> ->].
    pose proof (turn_one _ _ _ Ht).
    destruct fs as [|x [|y fs]]; simpl in *; [by apply elem_of_nil in Hin| |lia].
    apply list_elem_of_singleton in Hin as <-. reflexivity.
  - rewrite filter_none_length by (intros x Hx ->; done).
    destruct (Badge.globalLoaded (Badge.cache w)) eqn:Hl.
    + by rewrite (turn_loaded _ _ _ Ht Hl).
    + destruct (Badge.globalLoaded (Badge.cache (Badge.step proxy w e))) eqn:Hl'; [|done].
      destruct (turn_flag _ _ _ Ht Hl'); [congruence|done].
Qed.

(** X20: whatever is requested and however the fetches settle, the global
    endpoint is fetched at most once. *)
Theorem global_fetch_at_most_once proxy es :
  (Badge.issued Badge.GlobalBadges (Badge.run proxy Badge.start es) <= 1)%nat.
Proof.
  rewrite (global_fetch_once proxy Badge.start es) by reflexivity.
  destruct (Badge.globalLoaded _); lia.
Qed.

(** Once a channel slot holds a table, empty or not, it keeps holding one
    and no fetch for it is issued any more. *)
Lemma channel_slot_settled proxy w es b :
  is_Some (Badge.channels (Badge.cache w) !! b) →
  is_Some (Badge.channels (Badge.cache (Badge.run proxy w es)) !! b)
  ∧ Badge.issued (Badge.ChannelBadges b) (Badge.run proxy w es)
    = Badge.issued (Badge.ChannelBadges b) w.
Proof.
  revert w. induction es as [|e es IH]; intros w Hw; [done|].
  simpl. destruct (step_turn proxy w e) as (fs & Hfs & Ht).
  destruct (IH (Badge.step proxy w e)) as [H1 H2].
  { by apply (turn_channels _ _ _ Ht). }
  split; [done|]. rewrite H2. unfold Badge.issued at 1.
  rewrite Hfs, issued_app, filter_none_length; [lia|].
  intros x Hx ->. apply (turn_channel_fetch _ _ _ Ht) in Hx.
  rewrite Hx in Hw. by destruct Hw.
Qed.

Lemma run_app proxy w es1 es2 :
  Badge.run proxy w (es1 ++ es2) = Badge.run proxy (Badge.run proxy w es1) es2.
Proof. apply fold_left_app. Qed.

(** While the slot of [b] is empty, every call after the first one issues a
    fetch for it at once. *)
Lemma calls_before_settlement proxy b m w :
  Js.truthy proxy = true → Js.truthy b = true → Badge.wellFormed b = true →
  Badge.globalLoaded (Badge.cache w) = true →
  Badge.channels (Badge.cache w) !! b = None →
  Badge.run proxy w (replicate m (Badge.Call b))
  = {| Badge.cache := Badge.cache w;
       Badge.tasks := Badge.tasks w
         ++ replicate m {| Badge.broadcasterId := b; Badge.at_ := Badge.AwaitChannelFetch |};
       Badge.fetches := Badge.fetches w ++ replicate m (Badge.ChannelBadges b) |}.
Proof.
  intros Hp Hb Hwf. revert w. induction m as [|m IH]; intros w Hl Hc.
  - simpl. rewrite !app_nil_r. by destruct w.
  - simpl. unfold Badge.enter, Badge.channelPart.
    rewrite Hp, Hb, Hl, Hwf. simpl.
    rewrite bool_decide_eq_false_2 by (rewrite Hc; by intros [? ?]).
    rewrite IH by done. simpl.
    by rewrite <- !(assoc_L (++)).
Qed.

Lemma issued_replicate b m :
  length (filter (λ x, x = Badge.ChannelBadges b) (replicate m (Badge.ChannelBadges b))) = m.
Proof.
  induction m as [|m IH]; [reflexivity|].
  simpl. rewrite filter_cons_True by done. simpl. by rewrite IH.
Qed.

(** C1 fails on the channel slot: [n] requests for the same unseen room
    made before any settlement issue [n] fetches to that channel endpoint,
    one by each request; the first of them issues its own when the global
    fetch that it is waiting for has settled. *)
Theorem concurrent_requests_fetch_each (proxy b : list N) (n : nat) :
  Js.truthy proxy = true → Js.truthy b = true → Badge.wellFormed b = true →
  (1 <= n)%nat →
  Badge.issued (Badge.ChannelBadges b)
    (Badge.run proxy Badge.start
       (replicate n (Badge.Call b) ++ [Badge.Settle 0 Badge.Rejected]))
  = n.
Proof.
  intros Hp Hb Hwf Hn. destruct n as [|m]; [lia|].
  rewrite run_app. change (replicate (S m) (Badge.Call b))
    with ([Badge.Call b] ++ replicate m (Badge.Call b)).
  rewrite run_app.
  assert (H1 : Badge.run proxy Badge.start [Badge.Call b]
    = {| Badge.cache := Badge.markGlobalLoaded Badge.emptyCache;
         Badge.tasks := [{| Badge.broadcasterId := b; Badge.at_ := Badge.AwaitGlobalFetch |}];
         Badge.fetches := [Badge.GlobalBadges] |}).
  { simpl. unfold Badge.enter. rewrite Hp. reflexivity. }
  rewrite H1, calls_before_settlement by done.
  assert (Hf : ∀ w, Badge.fetches w
      = [Badge.GlobalBadges] ++ replicate m (Badge.ChannelBadges b)
        ++ [Badge.ChannelBadges b] →
    Badge.issued (Badge.ChannelBadges b) w = S m).
  { intros w Hw. unfold Badge.issued. rewrite Hw.
    rewrite !filter_app, !length_app, issued_replicate.
    rewrite filter_cons_False, !filter_cons_True by done. simpl. lia. }
  apply Hf. cbn [Badge.run fold_left Badge.step Badge.tasks app lookup list_lookup].
  cbn [Badge.resume Badge.broadcasterId Badge.at_ Badge.cache].
  unfold Badge.channelPart. rewrite Hb, Hwf. simpl.
  rewrite bool_decide_eq_false_2; [done|].
  rewrite lookup_empty. by intros [? ?].
Qed.

Lemma concurrent_requests_fetch_each_witness :
  Badge.fetches
    (Badge.run (Js.lit "https://proxy") Badge.start
       [Badge.Call (Js.lit "42"); Badge.Call (Js.lit "42");
        Badge.Settle 0 Badge.Rejected])
  = [Badge.GlobalBadges; Badge.ChannelBadges (Js.lit "42");
     Badge.ChannelBadges (Js.lit "42")]
  ∧ Badge.issued (Badge.ChannelBadges (Js.lit "42"))
      (Badge.run (Js.lit "https://proxy") Badge.start
         (replicate 2 (Badge.Call (Js.lit "42")) ++ [Badge.Settle 0 Badge.Rejected]))
    = 2%nat.
Proof.
  split; [reflexivity|].
  apply (concurrent_requests_fetch_each (Js.lit "https://proxy") (Js.lit "42") 2);
    [reflexivity|reflexivity|reflexivity|lia].
Defined.

(** C8 fails on the channel slot: two requests for the room are in flight,
    the fetch of one fails and the slot holds an empty table, then the fetch
    of the other succeeds and replaces it; the key that was not found is
    found afterwards. *)
Theorem failed_channel_slot_overwritten :
  let room := Js.lit "42" in
  let key := Js.lit "subscriber/6" in
  let url := Js.lit "https://c/6.png" in
  let body := Badge.Body [{| Badge.set_id := Js.lit "subscriber";
    Badge.versions := [{| Badge.v_id := Js.lit "6"; Badge.image_url_2x := Some url;
                          Badge.image_url_1x := None |}] |}] in
  let failed := Badge.run (Js.lit "https://proxy") Badge.start
    [Badge.Call room; Badge.Call room;
     Badge.Settle 0 (Badge.Response false);
     Badge.Settle 1 (Badge.Response false)] in
  let later := Badge.run (Js.lit "https://proxy") failed
    [Badge.Settle 0 (Badge.Response true); Badge.Settle 0 body] in
  Badge.channels (Badge.cache failed) !! room = Some ∅
  ∧ Badge.buildBadgesFragment (Badge.cache failed) [key] room = []
  ∧ Badge.issued (Badge.ChannelBadges room) later
    = Badge.issued (Badge.ChannelBadges room) failed
  ∧ Badge.channels (Badge.cache later) !! room = Some {[ key := Some url ]}
  ∧ Badge.buildBadgesFragment (Badge.cache later) [key] room = [url].
Proof.
  repeat split; vm_compute; reflexivity.
Qed.

(** ** Numbers: integers below [2^53] are exact *)

Lemma Qred_inject_Z z : Qred (inject_Z z) = inject_Z z.
Proof.
  unfold Qred, inject_Z.
  pose proof (Z.ggcd_gcd z 1) as Hg.
  pose proof (Z.ggcd_correct_divisors z 1) as Hd.
  destruct (Z.ggcd z 1) as [g [aa bb]]. simpl in Hg, Hd.
  rewrite Z.gcd_1_r in Hg. subst g. destruct Hd as [Ha Hb].
  replace aa with z by lia. replace bb with 1 by lia. reflexivity.
Qed.

Lemma fl_Qeq x y : (x == y)%Q → Num.fl x = Num.fl y.
Proof. intros H. unfold Num.fl. by rewrite (Qred_complete x y H). Qed.

Lemma rne_one n : Num.rne n 1 = n.
Proof. unfold Num.rne. by rewrite Z.mod_1_r, Z.div_1_r. Qed.

Lemma ilog2_one n : 0 < n → Num.ilog2 n 1 = Z.log2 n.
Proof.
  intros Hn. unfold Num.ilog2. change (Z.log2 1) with 0. rewrite Z.sub_0_r.
  pose proof (Z.log2_nonneg n) as H0.
  destruct (Z.leb_spec 0 (Z.log2 n)); [|lia].
  destruct (Z.log2_spec n Hn) as [Hlo _].
  destruct (Z.leb_spec (2 ^ Z.log2 n * 1) n); [done|lia].
Qed.

Lemma fl_inject_Z z : Z.abs z < 2 ^ 53 → Num.fl (inject_Z z) = Num.ofZ z.
Proof.
  intros Hz. unfold Num.fl, Num.ofZ. rewrite Qred_inject_Z.
  change (Qnum (inject_Z z)) with z. change (Z.pos (Qden (inject_Z z))) with 1.
  destruct (Z.eqb_spec (Z.abs z) 0) as [H0|H0].
  { replace z with 0 by lia. reflexivity. }
  set (n := Z.abs z) in *. assert (Hn : 0 < n) by lia.
  rewrite ilog2_one by done.
  assert (Hlog : 0 <= Z.log2 n < 53).
  { split; [apply Z.log2_nonneg|]. by apply Z.log2_lt_pow2. }
  rewrite Z.max_l by lia.
  set (sh := 52 - Z.log2 n). assert (Hsh : 0 <= sh) by lia.
  destruct (Z.leb_spec 0 sh) as [_|]; [|lia].
  rewrite rne_one.
  assert (Hpow : 0 < 2 ^ sh) by (apply Z.pow_pos_nonneg; lia).
  assert (Hbig : 2 ^ 53 <= 2 ^ 1024) by (apply Z.pow_le_mono_r; lia).
  assert (Hno : (sh <=? 0) && (2 ^ 1024 <=? n * 2 ^ sh * 2 ^ (- sh)) = false).
  { destruct (Z.leb_spec sh 0); [|done]. simpl.
    replace sh with 0 by lia. change (2 ^ (-0)) with 1. change (2 ^ 0) with 1.
    apply Z.leb_gt. lia. }
  rewrite Hno.
  assert (Hm : Qred (n * 2 ^ sh # Z.to_pos (2 ^ sh)) = inject_Z n).
  { rewrite <- (Qred_inject_Z n). apply Qred_complete.
    unfold Qeq, inject_Z. simpl. rewrite Z2Pos.id by done. lia. }
  rewrite Hm. f_equal.
  destruct (Z.ltb_spec z 0).
  - unfold Qopp, inject_Z. simpl. f_equal. lia.
  - unfold inject_Z. f_equal. lia.
Qed.

Lemma add_ofZ a b :
  Z.abs (a + b) < 2 ^ 53 → Num.add (Num.ofZ a) (Num.ofZ b) = Num.ofZ (a + b).
Proof.
  intros H. unfold Num.add, Num.ofZ.
  rewrite (fl_Qeq _ (inject_Z (a + b))); [by apply fl_inject_Z|].
  by rewrite inject_Z_plus.
Qed.


Lemma lt_ofZ a b : Num.lt (Num.ofZ a) (Num.ofZ b) = (a <? b).
Proof.
  unfold Num.lt, Num.ofZ, Num.Qltb, Qle_bool, inject_Z. simpl.
  rewrite !Z.mul_1_r. destruct (Z.leb_spec b a), (Z.ltb_spec a b); lia || done.
Qed.

Lemma gt_ofZ a b : Num.gt (Num.ofZ a) (Num.ofZ b) = (b <? a).
Proof. apply lt_ofZ. Qed.

Lemma toIndex_ofZ len z : 0 <= z <= len → Num.toIndex len (Num.ofZ z) = z.
Proof.
  intros H. unfold Num.toIndex, Num.ofZ, inject_Z. simpl.
  rewrite Z.quot_1_r. by apply relIndex_in_range.
Qed.



(** ** The segmenter on well-formed specifications *)

(** *** Sorting *)












(** *** The walk along a chain *)












(** *** What the literal segments of a covering hold *)







(** *** Coverage *)




(** ** Unparsable groups and ranges *)

(** A group without [:] gives no range. *)
Lemma parseDef_no_colon def : 58%N ∉ def → Emote.parseDef def = [].
Proof. intros H. unfold Emote.parseDef. by rewrite split_notin. Qed.

(** A group with nothing before its [:] gives no range. *)
Lemma parseDef_no_id rest : Emote.parseDef (58%N :: rest) = [].
Proof.
  unfold Emote.parseDef. simpl. by destruct (Js.split 58 rest) as [|locs ?].
Qed.

(** A group with nothing after its [:] gives no range. *)
Lemma parseDef_no_locs i : 58%N ∉ i → Emote.parseDef (i ++ [58%N]) = [].
Proof.
  intros H. unfold Emote.parseDef. rewrite split_app by done. simpl.
  by rewrite andb_false_r.
Qed.

(** An entry without [-] gives no range. *)
Lemma parseLoc_no_dash i loc : 45%N ∉ loc → Emote.parseLoc i loc = [].
Proof.
  intros H. unfold Emote.parseLoc. rewrite split_notin by done. simpl.
  by rewrite andb_false_r.
Qed.

(** An entry with an offset that converts to NaN or to an infinity gives no
    range; any other entry gives one. *)
Lemma parseLoc_offsets i loc :
  Emote.parseLoc i loc
  = let s := Num.Number (Js.split 45 loc !! 0%nat) in
    let e := Num.Number (Js.split 45 loc !! 1%nat) in
    match s, e with
    | Num.Fin _, Num.Fin _ => [{| Emote.start := s; Emote.end_ := e; Emote.id := i |}]
    | _, _ => []
    end.
Proof.
  unfold Emote.parseLoc. cbv zeta.
  destruct (Num.Number (Js.split 45 loc !! 0%nat)),
    (Num.Number (Js.split 45 loc !! 1%nat)); reflexivity.
Qed.

(** The groups are parsed one by one: a group that gives no range takes
    nothing from the others. *)
Lemma parseRanges_groups defs :
  defs ≠ [] → Forall (λ d, 47%N ∉ d) defs →
  Emote.parseRanges (Js.join [47%N] defs)
  = flat_map Emote.parseDef (filter (λ s, Is_true (Js.truthy s)) defs).
Proof. intros Hne Hd. unfold Emote.parseRanges. by rewrite split_join. Qed.

(** So are the entries of a group. *)
Lemma parseDef_entries i locs :
  Js.truthy i = true → 58%N ∉ i →
  Forall (λ l, (44%N ∉ l) ∧ (58%N ∉ l)) locs →
  Js.truthy (Js.join [44%N] locs) = true →
  Emote.parseDef (i ++ 58%N :: Js.join [44%N] locs) = flat_map (Emote.parseLoc i) locs.
Proof.
  intros Hi Hc Hl Ht. unfold Emote.parseDef.
  assert (Hne : locs ≠ []) by (intros ->; done).
  assert (Hj : 58%N ∉ Js.join [44%N] locs).
  { clear Ht Hne. induction Hl as [|l locs [_ Hl] Hls IH]; [apply not_elem_of_nil|].
    destruct locs as [|l' locs]; [done|].
    change (Js.join [44%N] (l :: l' :: locs))
      with (l ++ 44%N :: Js.join [44%N] (l' :: locs)).
    rewrite not_elem_of_app. split; [done|].
    apply not_elem_of_cons. split; [lia|by apply IH]. }
  rewrite split_app, split_notin by done. simpl. rewrite Hi, Ht. simpl.
  rewrite split_join; [done|done|].
  eapply Forall_impl; [exact Hl|]. by intros l [? _].
Qed.

Lemma segWalk_emoteRefs text rs segs cursor :
  emoteRefs (fold_left (Emote.segStep text) rs (segs, cursor)).1
  = emoteRefs segs ++ (Emote.id <$> rs).
Proof.
  revert segs cursor. induction rs as [|r rs IH]; intros segs cursor.
  - simpl. by rewrite app_nil_r.
  - cbn [fold_left Emote.segStep]. rewrite IH. unfold emoteRefs.
    rewrite omap_app. csimpl.
    destruct (Num.gt (Emote.start r) cursor).
    + rewrite omap_app. csimpl. by rewrite app_nil_r, <- (assoc_L (++)).
    + by rewrite <- (assoc_L (++)).
Qed.

(** Every range that was parsed gives one emote segment, in the order of
    the sort. *)
Lemma segments_emoteRefs text emotesTag :
  emoteRefs (Emote.segments text emotesTag)
  = Emote.id <$> Emote.sort (Emote.parseRanges emotesTag).
Proof.
  unfold Emote.segments.
  destruct (negb (Js.truthy emotesTag)) eqn:Ht.
  { by destruct emotesTag. }
  destruct (Emote.parseRanges emotesTag) as [|r rs]; [reflexivity|].
  unfold Emote.segWalk.
  pose proof (segWalk_emoteRefs text (Emote.sort (r :: rs)) [] (Num.ofZ 0)) as Hw.
  destruct (fold_left _ _ _) as [segs cursor]. simpl in Hw.
  destruct (Num.lt cursor _); [|done].
  unfold emoteRefs in *. rewrite omap_app, Hw. csimpl. apply app_nil_r.
Qed.

(** C7 fails for an empty offset: in the entry [3-] the end offset is the
    empty string, which [Number] converts to 0; the entry is not skipped
    and an emote segment with the range 3-0 is produced. *)
Theorem empty_offset_not_skipped :
  let text := Js.lit "abcdefgh" in
  Js.split 45 (Js.lit "3-") = [Js.lit "3"; []]
  ∧ Num.Number (Some []) = Num.ofZ 0
  ∧ Emote.parseRanges (Js.lit "25:3-") = [mkRange (3, 0, Js.lit "25")]
  ∧ Emote.segments text (Js.lit "25:3-")
    = [Emote.Literal (Js.lit "abc"); Emote.EmoteRef (Js.lit "25");
       Emote.Literal (Js.lit "bcdefgh")].
Proof. repeat split; vm_compute; reflexivity. Qed.

(** ** Well-formed specifications are parsed as they read *)

Lemma digitsText_digits ds :
  Forall (λ d, 0 <= d <= 9) ds → Forall isDigit (digitsText ds).
Proof.
  intros H. apply Forall_fmap. eapply Forall_impl; [exact H|].
  intros d Hd. unfold isDigit, compose. cbv beta in Hd |- *. lia.
Qed.

Lemma digits_notin c s : Forall isDigit s → ¬ isDigit c → c ∉ s.
Proof.
  intros Hs Hc Hin. rewrite Forall_forall in Hs. by apply Hc, Hs.
Qed.

Lemma isWhite_digit c : isDigit c → Num.isWhite c = false.
Proof.
  unfold isDigit, Num.isWhite. intros Hc.
  rewrite bool_decide_eq_false_2 by not_in_list.
  destruct (N.leb_spec 8192 c); [lia|done].
Qed.

Lemma skipWhite_digits s : Forall isDigit s → Num.skipWhite s = s.
Proof.
  destruct 1 as [|c s Hc Hs]; [done|]. simpl. by rewrite isWhite_digit.
Qed.

Lemma trim_digits s : Forall isDigit s → Num.trim s = s.
Proof.
  intros Hs. unfold Num.trim. rewrite (skipWhite_digits s Hs).
  rewrite skipWhite_digits; [apply rev_involutive|].
  by apply Forall_rev.
Qed.

Lemma spanDigits_digitsText ds :
  Forall (λ d, 0 <= d <= 9) ds → Num.spanDigits 10 (digitsText ds) = (ds, []).
Proof.
  induction 1 as [|d ds Hd Hds IH]; [reflexivity|].
  cbn [digitsText fmap list_fmap Num.spanDigits].
  fold (digitsText ds). rewrite IH.
  assert (Hv : Num.digitVal 10 (Z.to_N (48 + d)) = Some d).
  { unfold Num.digitVal. rewrite Z2N.id by lia.
    destruct (Z.leb_spec 48 (48 + d)); [|lia].
    destruct (Z.leb_spec (48 + d) 57); [|lia]. simpl.
    replace (48 + d - 48) with d by lia.
    destruct (Z.ltb_spec d 10); [done|lia]. }
  by rewrite Hv.
Qed.

Lemma digitsValue_nonneg_from ds a :
  Forall (λ d, 0 <= d <= 9) ds → 0 <= a →
  0 <= fold_left (λ a d, a * 10 + d) ds a.
Proof.
  intros H. revert a. induction H as [|d ds Hd Hds IH]; intros a Ha; simpl; [done|].
  apply IH. lia.
Qed.

Lemma digitsValue_nonneg ds :
  Forall (λ d, 0 <= d <= 9) ds → 0 <= Num.digitsValue 10 ds.
Proof. intros H. by apply digitsValue_nonneg_from. Qed.

(** [Number] of a string of decimal digits is the number that they
    denote, when that is below [2^53]. *)
Lemma Number_digitsText ds :
  digitsOk ds → Num.digitsValue 10 ds < 2 ^ 53 →
  Num.Number (Some (digitsText ds)) = Num.ofZ (Num.digitsValue 10 ds).
Proof.
  intros [Hne Hds] Hlt.
  pose proof (digitsText_digits ds Hds) as Hdig.
  pose proof (digitsValue_nonneg ds Hds) as H0.
  unfold Num.Number, Num.ofString. rewrite trim_digits by done.
  destruct ds as [|d ds]; [done|].
  destruct (digitsText (d :: ds)) as [|c s] eqn:Hs; [done|].
  apply Forall_cons in Hdig as [Hc Hdig]. unfold isDigit in Hc.
  assert (Hnd : Num.nonDecimal (c :: s) = None).
  { unfold Num.nonDecimal. destruct s as [|p r]; [done|].
    destruct (N.eqb_spec c 48); [|done].
    apply Forall_cons in Hdig as [Hp _]. unfold isDigit in Hp.
    unfold Num.baseOf.
    repeat (match goal with
            | |- context [N.eqb p ?k] => destruct (N.eqb_spec p k); [lia|]
            end).
    reflexivity. }
  rewrite Hnd. unfold Num.signOf.
  destruct (N.eqb_spec c 43); [lia|]. destruct (N.eqb_spec c 45); [lia|].
  rewrite bool_decide_eq_false_2.
  2:{ intros [= -> _]. lia. }
  unfold Num.unsignedDecimal. rewrite <- Hs.
  rewrite spanDigits_digitsText by done.
  cbn [Num.fractionPart]. rewrite app_nil_r.
  cbn [Num.exponentPart length]. 
  rewrite (fl_Qeq _ (inject_Z (Num.digitsValue 10 (d :: ds)))).
  - apply fl_inject_Z. lia.
  - change (Num.pow10 (0 - Z.of_nat 0)) with (inject_Z 1).
    rewrite <- inject_Z_mult. by rewrite Z.mul_1_r.
Qed.

Lemma entryText_chars e :
  digitsOk e.1 → digitsOk e.2 →
  (44%N ∉ entryText e) ∧ (58%N ∉ entryText e) ∧ (47%N ∉ entryText e).
Proof.
  intros [_ H1] [_ H2]. apply digitsText_digits in H1, H2.
  unfold entryText. rewrite !not_elem_of_app, !not_elem_of_cons.
  repeat split; try lia;
    (eapply digits_notin; [eassumption|unfold isDigit; lia]).
Qed.

Lemma parseLoc_entryText i e :
  digitsOk e.1 → digitsOk e.2 →
  Num.digitsValue 10 e.1 < 2 ^ 53 → Num.digitsValue 10 e.2 < 2 ^ 53 →
  Emote.parseLoc i (entryText e) = [mkRange (entryRange i e)].
Proof.
  intros H1 H2 Hv1 Hv2. unfold Emote.parseLoc, entryText.
  pose proof (digitsText_digits _ (proj2 H1)) as Hd1.
  pose proof (digitsText_digits _ (proj2 H2)) as Hd2.
  rewrite split_app by (eapply digits_notin; [eassumption|unfold isDigit; lia]).
  rewrite split_notin by (eapply digits_notin; [eassumption|unfold isDigit; lia]).
  cbn [lookup list_lookup].
  by rewrite !Number_digitsText.
Qed.

Lemma join_chars (c sep : N) pieces :
  c ≠ sep → Forall (λ p, c ∉ p) pieces → c ∉ Js.join [sep] pieces.
Proof.
  intros Hc. induction 1 as [|p pieces Hp Hps IH]; [apply not_elem_of_nil|].
  destruct pieces as [|q pieces]; [done|].
  change (Js.join [sep] (p :: q :: pieces))
    with (p ++ sep :: Js.join [sep] (q :: pieces)).
  rewrite not_elem_of_app. split; [done|].
  apply not_elem_of_cons. by split.
Qed.

Lemma join_truthy sep p pieces :
  Js.truthy p = true → Js.truthy (Js.join sep (p :: pieces)) = true.
Proof.
  intros Hp. destruct p as [|c p]; [done|]. by destruct pieces.
Qed.

Lemma parseDef_groupText g :
  groupOk g → groupBelow g →
  Emote.parseDef (groupText g) = mkRange <$> (entryRange g.1 <$> g.2).
Proof.
  intros (Hid & _ & Hcolon & Hne & Hes) Hlt. unfold groupText.
  rewrite parseDef_entries.
  - unfold groupBelow in Hlt. clear Hne.
    induction Hes as [|e es [H1 H2] Hes IH]; [reflexivity|].
    apply Forall_cons in Hlt as [[Hv1 Hv2] Hlt].
    cbn [fmap list_fmap flat_map]. rewrite parseLoc_entryText by done.
    simpl. f_equal. by apply IH.
  - by destruct g.1.
  - done.
  - apply Forall_fmap. eapply Forall_impl; [exact Hes|].
    intros e [H1 H2]. simpl. destruct (entryText_chars e H1 H2) as (? & ? & ?). done.
  - destruct g.2 as [|e es]; [done|]. cbn [fmap list_fmap].
    apply join_truthy. unfold entryText.
    by destruct (digitsText e.1).
Qed.

Lemma groupText_chars g :
  groupOk g → (47%N ∉ groupText g) ∧ Js.truthy (groupText g) = true.
Proof.
  intros (Hid & Hslash & _ & _ & Hes). unfold groupText. split.
  - rewrite not_elem_of_app. split; [done|].
    apply not_elem_of_cons. split; [lia|].
    apply join_chars; [lia|]. apply Forall_fmap.
    eapply Forall_impl; [exact Hes|].
    intros e [H1 H2]. simpl. by destruct (entryText_chars e H1 H2) as (? & ? & ?).
  - by destruct g.1.
Qed.

Lemma parseRanges_specText gs :
  Forall groupOk gs → Forall groupBelow gs →
  Emote.parseRanges (specText gs) = mkRange <$> specRanges gs.
Proof.
  intros Hok Hlt. destruct gs as [|g0 gs0]; [reflexivity|].
  unfold specText. rewrite parseRanges_groups; [|done|].
  2:{ apply Forall_fmap. eapply Forall_impl; [exact Hok|].
      intros g Hg. simpl. by destruct (groupText_chars g Hg). }
  generalize (g0 :: gs0) Hok Hlt. clear. intros gs Hok Hlt.
  induction Hok as [|g gs Hg Hok IH]; [reflexivity|].
  apply Forall_cons in Hlt as [Hgl Hlt].
  cbn [fmap list_fmap]. rewrite filter_cons_True.
  2:{ destruct (groupText_chars g Hg) as [_ ->]. done. }
  cbn [flat_map specRanges]. rewrite fmap_app.
  rewrite parseDef_groupText by done. f_equal. by apply IH.
Qed.




(** ** The global slot is written once *)

Lemma channelPart_global b c :
  Badge.global (Badge.channelPart b c).1.1 = Badge.global c
  ∧ Badge.globalLoaded (Badge.channelPart b c).1.1 = Badge.globalLoaded c
  ∧ ((Badge.channelPart b c).2 = Badge.Returned
     ∨ (Badge.channelPart b c).2 = Badge.AwaitChannelFetch).
Proof.
  unfold Badge.channelPart.
  destruct (negb (Js.truthy b)); [by auto|].
  destruct (bool_decide _); [by auto|].
  destruct (Badge.wellFormed b); simpl; by auto.
Qed.

Lemma inv_start : globalInv Badge.start.
Proof. split; [|done]. intros i tk H. simpl in H. by rewrite lookup_nil in H. Qed.

(** A new invocation that does not wait for the global table. *)
Lemma inv_push w c' tk' fs :
  globalInv w → awaitsGlobal tk' = false →
  Badge.global c' = Badge.global (Badge.cache w) →
  Badge.globalLoaded c' = Badge.globalLoaded (Badge.cache w) →
  globalInv {| Badge.cache := c'; Badge.tasks := Badge.tasks w ++ [tk'];
               Badge.fetches := fs |}.
Proof.
  intros [Hw Hu] Hn Hg Hl. split; simpl; [|rewrite Hg, Hl; exact Hu].
  intros i tk [[Hi Htk]|[_ <-]]%lookup_snoc_Some; [|congruence]. intros Ha.
  destruct (Hw i tk Htk Ha) as (H1 & H2 & H3).
  rewrite Hg, Hl. split; [done|]. split; [done|].
  intros j tk2 [[Hj Htk2]|[_ <-]]%lookup_snoc_Some; [|congruence].
  by apply H3.
Qed.

(** The first invocation: it sets the flag and waits for the global
    table. *)
Lemma inv_first w b fs :
  globalInv w → Badge.globalLoaded (Badge.cache w) = false →
  globalInv {| Badge.cache := Badge.markGlobalLoaded (Badge.cache w);
               Badge.tasks := Badge.tasks w
                 ++ [{| Badge.broadcasterId := b; Badge.at_ := Badge.AwaitGlobalFetch |}];
               Badge.fetches := fs |}.
Proof.
  intros [Hw Hu] Hl.
  assert (Hnone : ∀ i tk, Badge.tasks w !! i = Some tk → awaitsGlobal tk = true → False).
  { intros i tk Htk Ha. destruct (Hw i tk Htk Ha) as (H1 & _). congruence. }
  split; simpl; [|done].
  intros i tk [[Hi Htk]|[-> <-]]%lookup_snoc_Some Ha; [by destruct (Hnone i tk)|].
  split; [done|]. split; [by apply Hu|].
  intros j tk2 [[Hj Htk2]|[-> _]]%lookup_snoc_Some Ha2; [by destruct (Hnone j tk2)|done].
Qed.

(** An invocation moves on without touching the global slot. *)
Lemma inv_update w t tk tk' c' fs :
  globalInv w → Badge.tasks w !! t = Some tk →
  (awaitsGlobal tk' = true → awaitsGlobal tk = true) →
  Badge.global c' = Badge.global (Badge.cache w) →
  Badge.globalLoaded c' = Badge.globalLoaded (Badge.cache w) →
  globalInv {| Badge.cache := c'; Badge.tasks := <[t := tk']> (Badge.tasks w);
               Badge.fetches := fs |}.
Proof.
  intros [Hw Hu] Ht Himp Hg Hl. split; simpl; [|rewrite Hg, Hl; exact Hu].
  assert (Hold : ∀ i tk1, <[t := tk']> (Badge.tasks w) !! i = Some tk1 →
    awaitsGlobal tk1 = true →
    ∃ tk0, Badge.tasks w !! i = Some tk0 ∧ awaitsGlobal tk0 = true).
  { intros i tk1 [(-> & <- & _)|[Hne Htk1]]%list_lookup_insert_Some Ha.
    - exists tk. split; [done|by apply Himp].
    - by exists tk1. }
  intros i tk1 Htk1 Ha. destruct (Hold i tk1 Htk1 Ha) as (tk0 & Htk0 & Ha0).
  destruct (Hw i tk0 Htk0 Ha0) as (H1 & H2 & H3).
  rewrite Hg, Hl. split; [done|]. split; [done|].
  intros j tk2 Htk2 Ha2. destruct (Hold j tk2 Htk2 Ha2) as (tk3 & Htk3 & Ha3).
  by apply (H3 j tk3).
Qed.

(** The invocation that waited for the global table stores it. *)
Lemma inv_finish w t tk tk' c' fs :
  globalInv w → Badge.tasks w !! t = Some tk →
  awaitsGlobal tk = true → awaitsGlobal tk' = false →
  Badge.globalLoaded c' = true →
  globalInv {| Badge.cache := c'; Badge.tasks := <[t := tk']> (Badge.tasks w);
               Badge.fetches := fs |}.
Proof.
  intros [Hw Hu] Ht Ha Hn Hl. split; simpl; [|congruence].
  destruct (Hw t tk Ht Ha) as (_ & _ & Huniq).
  intros i tk1 [(-> & <- & _)|[Hne Htk1]]%list_lookup_insert_Some Ha1; [congruence|].
  destruct Hne. symmetry. by apply (Huniq i tk1).
Qed.

Lemma step_inv proxy w e : globalInv w → globalInv (Badge.step proxy w e).
Proof.
  intros Hinv. destruct e as [b|t s]; simpl.
  - unfold Badge.enter.
    destruct (negb (Js.truthy proxy)); [by apply inv_push|].
    destruct (Badge.globalLoaded (Badge.cache w)) eqn:Hl; simpl.
    + destruct (channelPart_global b (Badge.cache w)) as (Hg & Hl' & Hp).
      destruct (Badge.channelPart b (Badge.cache w)) as [[c fs] p]. simpl in *.
      apply inv_push; [done| |done|congruence].
      unfold awaitsGlobal. simpl. by destruct Hp as [-> | ->].
    + by apply inv_first.
  - destruct (Badge.tasks w !! t) as [tk|] eqn:Ht; [|done].
    destruct (Badge.resume _ _ _ _) as [[[c fs] p]|] eqn:Hr; [|done].
    destruct tk as [b q]. simpl in Hr.
    assert (Hwait : awaitsGlobal {| Badge.broadcasterId := b; Badge.at_ := q |} = true →
                    Badge.globalLoaded (Badge.cache w) = true).
    { intros Ha. by destruct (inv_waiting w Hinv t _ Ht Ha) as (? & _). }
    assert (Hstore : ∀ tb,
      awaitsGlobal {| Badge.broadcasterId := b; Badge.at_ := q |} = true →
      (c, fs, p) = Badge.channelPart b (Badge.setGlobal tb (Badge.cache w)) →
      globalInv {| Badge.cache := c;
                   Badge.tasks := <[t := {| Badge.broadcasterId := b; Badge.at_ := p |}]> (Badge.tasks w);
                   Badge.fetches := Badge.fetches w ++ fs |}).
    { intros tb Ha Heq.
      destruct (channelPart_global b (Badge.setGlobal tb (Badge.cache w))) as (_ & Hl' & Hp).
      rewrite <- Heq in Hl', Hp. simpl in Hl', Hp.
      eapply inv_finish; [done|exact Ht|done| |].
      - unfold awaitsGlobal. simpl. by destruct Hp as [-> | ->].
      - rewrite Hl'. by apply Hwait. }
    destruct q, s as [| [|] |data]; simpl in Hr; try discriminate;
      first [ by (eapply Hstore; [done|]; injection Hr as <-)
            | by (simplify_eq; eapply inv_update; [done|exact Ht|..]) ].
Qed.

Lemma run_inv proxy w es : globalInv w → globalInv (Badge.run proxy w es).
Proof.
  revert w. induction es as [|e es IH]; intros w Hw; [done|].
  simpl. by apply IH, step_inv.
Qed.

Lemma step_global_kept proxy w e tb :
  globalInv w → Badge.global (Badge.cache w) = Some tb →
  Badge.global (Badge.cache (Badge.step proxy w e)) = Some tb.
Proof.
  intros Hinv Hg. destruct e as [b|t s]; simpl.
  - unfold Badge.enter.
    destruct (negb (Js.truthy proxy)); [done|].
    destruct (Badge.globalLoaded (Badge.cache w)) eqn:Hl; simpl.
    + destruct (channelPart_global b (Badge.cache w)) as (Hg' & _).
      destruct (Badge.channelPart b (Badge.cache w)) as [[c fs] p]. simpl in *.
      congruence.
    + rewrite (inv_unloaded w Hinv Hl) in Hg. discriminate.
  - destruct (Badge.tasks w !! t) as [[b q]|] eqn:Ht; [|done].
    destruct (Badge.resume _ _ _ _) as [[[c fs] p]|] eqn:Hr; [|done].
    simpl in *.
    assert (Hno : awaitsGlobal {| Badge.broadcasterId := b; Badge.at_ := q |} = false).
    { destruct (awaitsGlobal _) eqn:Ha; [|done].
      destruct (inv_waiting w Hinv t _ Ht Ha) as (_ & Hnone & _). congruence. }
    destruct q, s as [| [|] |data]; simpl in Hr, Hno; try discriminate;
      by simplify_eq.
Qed.

Lemma run_loaded proxy w es :
  Badge.globalLoaded (Badge.cache w) = true →
  Badge.globalLoaded (Badge.cache (Badge.run proxy w es)) = true.
Proof.
  revert w. induction es as [|e es IH]; intros w Hl; [done|].
  simpl. apply IH. destruct (step_turn proxy w e) as (fs & _ & Ht).
  by apply (turn_loaded _ _ _ Ht).
Qed.

(** X21: once the global slot holds a table, the table of a failed fetch being
    the empty one, it holds that table for good, and the global endpoint
    is not fetched again. *)
Theorem global_slot_final proxy es1 es2 tb :
  let w := Badge.run proxy Badge.start es1 in
  Badge.global (Badge.cache w) = Some tb →
  Badge.global (Badge.cache (Badge.run proxy w es2)) = Some tb
  ∧ Badge.issued Badge.GlobalBadges (Badge.run proxy w es2)
    = Badge.issued Badge.GlobalBadges w.
Proof.
  intros w Hg.
  assert (Hinv : globalInv w) by apply run_inv, inv_start.
  assert (Hkept : ∀ es w', globalInv w' → Badge.global (Badge.cache w') = Some tb →
            Badge.global (Badge.cache (Badge.run proxy w' es)) = Some tb).
  { induction es as [|e es IH]; intros w' Hw' Hg'; [done|].
    simpl. apply IH; [by apply step_inv|by apply step_global_kept]. }
  split; [by apply Hkept|].
  assert (Hl : Badge.globalLoaded (Badge.cache w) = true).
  { destruct (Badge.globalLoaded (Badge.cache w)) eqn:Hl; [done|].
    rewrite (inv_unloaded w Hinv Hl) in Hg. discriminate. }
  assert (Hone : Badge.issued Badge.GlobalBadges w = 1%nat).
  { unfold w at 1. rewrite (global_fetch_once proxy Badge.start es1) by reflexivity.
    fold w. by rewrite Hl. }
  unfold w at 1. rewrite <- run_app.
  rewrite (global_fetch_once proxy Badge.start (es1 ++ es2)) by reflexivity.
  rewrite run_app. fold w. rewrite Hone.
  by rewrite (run_loaded proxy w es2 Hl).
Qed.

(** ** The parser on the example of the specification *)

(** The five tags that the parser reads are not names of
    [Object.prototype]: reading them gives a string or [undefined]. *)
Lemma consumed_tags_own (tags : gmap (list N) (list N)) (k : list N) :
  k ∈ Js.lit <$> ["display-name"; "color"; "emotes"; "badges"; "room-id"]%string →
  Obj.get tags k ≠ Obj.Inherited.
Proof.
  intros Hk. unfold Obj.get. destruct (tags !! k); [done|].
  assert (bool_decide (k ∈ Obj.prototypeKeys) = false) as ->; [|done].
  revert Hk. rewrite !fmap_cons, fmap_nil, !elem_of_cons, elem_of_nil.
  intros [->|[->|[->|[->|[->|[]]]]]]; vm_compute; reflexivity.
Qed.

Example parsePrivmsg_example :
  parsePrivmsg (Js.lit
    "@display-name=Bob;color=#112233;emotes=25:0-2/33:4-6;badges=subscriber/6;room-id=42 :tmi.twitch.tv PRIVMSG #ch :LOL yay")
  = Some {| name := Js.lit "Bob"; color := Js.lit "#112233";
            htmlParts := Emote.html <$>
              [Emote.EmoteRef (Js.lit "25"); Emote.Literal (Js.lit " ");
               Emote.EmoteRef (Js.lit "33")];
            badges := Js.lit "subscriber/6"; roomId := Js.lit "42" |}.
Proof. vm_compute. reflexivity. Qed.

(** * Further properties *)

(** ** Escaping loses nothing *)

Lemma entity_cases c :
  (∃ tail, entity c = 38%N :: tail
           ∧ c ∈ [38; 60; 62; 34; 39]%N
           ∧ (tail, c) ∈ [(Js.lit "amp;", 38%N); (Js.lit "lt;", 60%N);
                           (Js.lit "gt;", 62%N); (Js.lit "quot;", 34%N);
                           (Js.lit "#039;", 39%N)])
  ∨ (entity c = [c] ∧ c ∉ [38; 60; 62; 34; 39]%N).
Proof.
  unfold entity.
  destruct (N.eqb_spec c 38) as [->|?];
    [left; eexists; split; [reflexivity|]; split; set_solver|].
  destruct (N.eqb_spec c 60) as [->|?];
    [left; eexists; split; [reflexivity|]; split; set_solver|].
  destruct (N.eqb_spec c 62) as [->|?];
    [left; eexists; split; [reflexivity|]; split; set_solver|].
  destruct (N.eqb_spec c 34) as [->|?];
    [left; eexists; split; [reflexivity|]; split; set_solver|].
  destruct (N.eqb_spec c 39) as [->|?];
    [left; eexists; split; [reflexivity|]; split; set_solver|].
  right. split; [done|]. not_in_list.
Qed.

(** No entity is the beginning of another text's entity. *)
Lemma entity_prefix_free c c' r r' :
  entity c ++ r = entity c' ++ r' → c = c' ∧ r = r'.
Proof.
  destruct (entity_cases c) as [(t & -> & Hc & Ht)|[-> Hc]],
           (entity_cases c') as [(t' & -> & Hc' & Ht')|[-> Hc']].
  - rewrite !elem_of_cons, elem_of_nil in Ht, Ht'. intros H.
    destruct Ht as [Ht|[Ht|[Ht|[Ht|[Ht|[]]]]]], Ht' as [Ht'|[Ht'|[Ht'|[Ht'|[Ht'|[]]]]]];
      injection Ht as -> ->; injection Ht' as -> ->;
      vm_compute (Js.lit _) in H; simplify_eq; done.
  - simpl. intros [= <- _]. exfalso. apply Hc'. set_solver.
  - simpl. intros [= -> _]. exfalso. apply Hc. set_solver.
  - simpl. by intros [= -> ->].
Qed.

Lemma entity_nonempty c : entity c ≠ [].
Proof.
  destruct (entity_cases c) as [(t & -> & _)|[-> _]]; done.
Qed.

(** X1: escaping is injective: two different texts never give the same
    HTML. *)
Theorem escapeHtml_injective (s t : list N) :
  escapeHtml s = escapeHtml t → s = t.
Proof.
  revert t. induction s as [|c s IH]; intros [|c' t].
  - done.
  - rewrite escapeHtml_cons. intros H. symmetry in H.
    apply app_eq_nil in H as [H _]. by destruct (entity_nonempty c').
  - rewrite escapeHtml_cons. intros H.
    apply app_eq_nil in H as [H _]. by destruct (entity_nonempty c).
  - rewrite !escapeHtml_cons. intros H.
    apply entity_prefix_free in H as [-> H]. f_equal. by apply IH.
Qed.

(** X2: escaping leaves a text unchanged exactly when the text holds none
    of the five special characters, and never makes it shorter. *)
Theorem escapeHtml_fixed (s : list N) :
  (escapeHtml s = s ↔ Forall (λ c, c ∉ [38; 60; 62; 34; 39]%N) s)
  ∧ (length s <= length (escapeHtml s))%nat.
Proof.
  assert (Hlen : ∀ u, (length u <= length (escapeHtml u))%nat).
  { induction u as [|c u IH]; [done|].
    rewrite escapeHtml_cons, length_app. simpl.
    pose proof (entity_nonempty c). destruct (entity c); [done|]. simpl. lia. }
  split; [|apply Hlen]. split.
  - induction s as [|c s IH]; [constructor|].
    rewrite escapeHtml_cons. intros H.
    destruct (entity_cases c) as [(t & He & Hc & Ht)|[He Hc]].
    + exfalso. rewrite He in H.
      rewrite !elem_of_cons, elem_of_nil in Ht.
      assert (Hl : (length (escapeHtml s) < length s)%nat).
      { apply (f_equal length) in H. simpl in H. rewrite length_app in H.
        destruct Ht as [Ht|[Ht|[Ht|[Ht|[Ht|[]]]]]]; injection Ht as -> ->;
          simpl in H; lia. }
      specialize (Hlen s). lia.
    + rewrite He in H. injection H as H. constructor; [done|by apply IH].
  - induction 1 as [|c s Hc Hs IH]; [done|].
    rewrite escapeHtml_cons, IH.
    destruct (entity_cases c) as [(t & He & Hc' & _)|[-> _]]; done.
Qed.

(** ** Emotes are never dropped, and their ids are not escaped *)

Lemma emote_insert_perm r l : Emote.insert r l ≡ₚ r :: l.
Proof.
  induction l as [|x l IH]; [done|].
  cbn [Emote.insert]. case_match; [|done].
  rewrite IH. apply Permutation_swap.
Qed.

Lemma emote_sort_perm l : Emote.sort l ≡ₚ l.
Proof.
  induction l as [|r l IH]; [done|].
  change (Emote.sort (r :: l)) with (Emote.insert r (Emote.sort l)).
  by rewrite emote_insert_perm, IH.
Qed.

(** X3: whatever the text and the tag, overlapping or out of range, the
    parts hold one image for every range that was parsed, in the order of
    the sort; the other parts are the literals. *)
Theorem one_image_per_range (text emotesTag : list N) :
  Emote.buildMessageHtmlParts text emotesTag
  = Emote.html <$> Emote.segments text emotesTag
  ∧ emoteRefs (Emote.segments text emotesTag)
    = Emote.id <$> Emote.sort (Emote.parseRanges emotesTag)
  ∧ Emote.sort (Emote.parseRanges emotesTag) ≡ₚ Emote.parseRanges emotesTag.
Proof.
  split; [apply parts_of_segments|]. split; [apply segments_emoteRefs|].
  apply emote_sort_perm.
Qed.

(** X4: a well-formed specification is read back as its ranges, in the
    order of the text. *)
Theorem specText_parsed (gs : list (list N * list (list Z * list Z))) :
  Forall groupOk gs → Forall groupBelow gs →
  Emote.parseRanges (specText gs) = mkRange <$> specRanges gs.
Proof. apply parseRanges_specText. Qed.

Lemma specText_parsed_witness :
  let gs := [(Js.lit "25", [([0], [4]); ([1; 2], [1; 6])]);
             (Js.lit "1902", [([6], [1; 0])])] in
  specText gs = Js.lit "25:0-4,12-16/1902:6-10"
  ∧ Emote.parseRanges (specText gs)
    = mkRange <$> [(0, 4, Js.lit "25"); (12, 16, Js.lit "25");
                   (6, 10, Js.lit "1902")].
Proof.
  intros gs. split; [reflexivity|].
  apply (specText_parsed gs).
  - repeat constructor; simpl; try discriminate; try lia;
      vm_compute (Js.lit _); not_in_list.
  - unfold groupBelow.
    repeat (apply Forall_cons; split); try apply Forall_nil_2;
      split; reflexivity.
Defined.

(** X5: the emote id goes into the image part as it is.  For any id
    (without the separators [/] and [:]) the tag [id:0-0] gives the image
    of that id, which holds the id verbatim, followed by the rest of the
    text. *)
Theorem emote_id_verbatim (text i : list N) :
  i ≠ [] → (47%N ∉ i) → (58%N ∉ i) →
  Emote.buildMessageHtmlParts text (i ++ Js.lit ":0-0")
  = Emote.emoteImg i
    :: (if 1 <? Z.of_nat (length text) then [escapeHtml (drop 1 text)] else [])
  ∧ substring i (Emote.emoteImg i).
Proof.
  intros Hne H47 H58. split.
  2:{ exists (Js.lit "<img class=" ++ [Js.DQUOTE] ++ Js.lit "emote" ++ [Js.DQUOTE]
              ++ Js.lit " alt=" ++ [Js.DQUOTE; Js.DQUOTE]
              ++ Js.lit " src=" ++ [Js.DQUOTE]
              ++ Js.lit "https://static-cdn.jtvnw.net/emoticons/v2/"),
             (Js.lit "/default/dark/1.0" ++ [Js.DQUOTE] ++ Js.lit ">").
      unfold Emote.emoteImg. by rewrite <- !app_assoc. }
  assert (Hp : Emote.parseRanges (i ++ Js.lit ":0-0") = [mkRange (0, 0, i)]).
  { apply (parseRanges_specText [(i, [([0], [0])])]).
    - repeat constructor; simpl; try done; lia.
    - repeat constructor; simpl; reflexivity. }
  unfold Emote.buildMessageHtmlParts. rewrite Hp.
  assert (Ht : Js.truthy (i ++ Js.lit ":0-0") = true) by (by destruct i).
  rewrite Ht. cbn [negb Emote.sort foldr Emote.insert Emote.walk fold_left Emote.walkStep].
  change (Emote.start (mkRange (0, 0, i))) with (Num.ofZ 0).
  change (Emote.end_ (mkRange (0, 0, i))) with (Num.ofZ 0).
  change (Emote.id (mkRange (0, 0, i))) with i.
  rewrite gt_ofZ, add_ofZ, lt_ofZ by (simpl; lia).
  change (0 + 1) with 1.
  destruct (Z.ltb_spec 1 (Z.of_nat (length text))); [|done].
  unfold Num.sliceFrom. by rewrite toIndex_ofZ by lia.
Qed.

Lemma emote_id_verbatim_witness :
  let i := Js.lit "x" ++ [Js.DQUOTE] ++ Js.lit " onerror=" ++ [Js.DQUOTE]
           ++ Js.lit "alert(1)" in
  Emote.buildMessageHtmlParts (Js.lit "hi") (i ++ Js.lit ":0-0")
  = [Emote.emoteImg i; Js.lit "i"]
  ∧ substring i (Emote.emoteImg i).
Proof.
  intros i.
  apply (emote_id_verbatim (Js.lit "hi") i).
  - discriminate.
  - unfold i. vm_compute (_ ++ _). not_in_list.
  - unfold i. vm_compute (_ ++ _). not_in_list.
Defined.

(** ** The message parser: what an accepted line gives *)

(** X6: every line whose working portion holds [" :"] gives an event,
    whatever its command; only the filter of the socket handler keeps
    other commands away. *)
Theorem marker_gives_event (line : list N) :
  substring (Js.lit " :") (workingPortion line) →
  ∃ ev, parsePrivmsg line = Some ev.
Proof.
  intros H. destruct (parsePrivmsg line) as [ev|] eqn:E; [by exists ev|].
  apply parsePrivmsg_none in E. by destruct E.
Qed.

Lemma marker_gives_event_witness :
  ∃ ev, parsePrivmsg (Js.lit "PING :tmi.twitch.tv") = Some ev.
Proof.
  apply (marker_gives_event (Js.lit "PING :tmi.twitch.tv")).
  exists (Js.lit "PING"), (Js.lit "tmi.twitch.tv"). reflexivity.
Defined.

Lemma indexOf_marker_first cmd text i :
  ¬ substring [32; 58]%N cmd →
  Js.indexOfFrom [32; 58]%N (cmd ++ 32%N :: 58%N :: text) i
  = i + Z.of_nat (length cmd).
Proof.
  revert i. induction cmd as [|c cmd IH]; intros i Hn.
  - simpl. lia.
  - cbn [app Js.indexOfFrom].
    assert (Hs : Js.startsWith [32; 58]%N (c :: cmd ++ 32%N :: 58%N :: text) = false).
    { destruct (Js.startsWith _ _) eqn:E; [|done]. exfalso.
      apply startsWith_prefix in E as [post E].
      destruct cmd as [|d cmd]; [simpl in E; simplify_eq|].
      simpl in E. injection E as -> -> _.
      apply Hn. by exists [], cmd. }
    rewrite Hs, IH.
    + simpl. lia.
    + intros (pre & post & ->). apply Hn. by exists (c :: pre), post.
Qed.

Lemma slice_middle pre mid post :
  Js.slice (pre ++ mid ++ post) (Z.of_nat (length pre))
    (Z.of_nat (length pre) + Z.of_nat (length mid)) = mid.
Proof.
  unfold Js.slice. rewrite !length_app.
  rewrite !relIndex_in_range by lia.
  rewrite Nat2Z.id, drop_app_length.
  replace (Z.to_nat _) with (length mid) by lia.
  apply take_app_length.
Qed.

Lemma splitTags_tagged blob rest :
  32%N ∉ blob →
  splitTags (64%N :: blob ++ 32%N :: rest) = (parseTags blob, rest).
Proof.
  intros Hb. unfold splitTags.
  change (Js.startsWith (Js.lit "@") (64%N :: blob ++ 32%N :: rest)) with true.
  cbv iota. change (Js.lit " ") with [32%N]. unfold Js.indexOf.
  change (64%N :: blob ++ 32%N :: rest) with ((64%N :: blob) ++ 32%N :: rest).
  rewrite indexOfFrom_char_first by (apply not_elem_of_cons; split; [lia|done]).
  f_equal.
  - f_equal.
    pose proof (slice_middle [64%N] blob (32%N :: rest)) as H.
    cbn [app length] in H |- *.
    replace (0 + Z.of_nat (S (length blob)))
      with (Z.of_nat 1 + Z.of_nat (length blob)) by lia. exact H.
  - replace (0 + Z.of_nat (length (64%N :: blob)) + 1)
      with (Z.of_nat (length ((64%N :: blob) ++ [32%N]))).
    2:{ rewrite length_app. simpl. lia. }
    rewrite (cons_middle 32%N (64%N :: blob) rest), (assoc_L (++)).
    apply sliceFrom_app.
Qed.

Lemma parseTags_lookup tags k :
  Forall tagOk tags → k ≠ Js.lit "__proto__" → k ≠ [] →
  parseTags (renderTags tags) !! k = lastValue k tags.
Proof.
  intros Hok Hk Hne. destruct tags as [|t tags].
  - unfold parseTags, renderTags. simpl. unfold tagStep. simpl.
    rewrite set_lookup_ne by done.
    rewrite bool_decide_eq_false_2 by done. apply lookup_empty.
  - rewrite parseTags_render, fold_tags_lookup by done.
    destruct (lastValue k (t :: tags)); [done|apply lookup_empty].
Qed.

Lemma get_consumed tags k d :
  Forall tagOk tags →
  k ∈ Js.lit <$> ["display-name"; "color"; "emotes"; "badges"; "room-id"]%string →
  Obj.orDefault (Obj.get (parseTags (renderTags tags)) k) d = tagOr tags k d.
Proof.
  intros Hok Hk. unfold Obj.get, tagOr.
  assert (Hk' : k ≠ Js.lit "__proto__" ∧ k ≠ []
                ∧ bool_decide (k ∈ Obj.prototypeKeys) = false).
  { revert Hk. rewrite !fmap_cons, fmap_nil, !elem_of_cons, elem_of_nil.
    intros [->|[->|[->|[->|[->|[]]]]]]; repeat split; try discriminate;
      vm_compute; reflexivity. }
  destruct Hk' as (H1 & H2 & H3).
  rewrite parseTags_lookup by done.
  destruct (lastValue k tags); [done|]. by rewrite H3.
Qed.

(** X7: a line built from a tag blob without a space, a command part
    without [" :"] and a text parses back to them: the text is everything
    after the first [" :"] of the working line, segmented with the
    [emotes] tag, and every field is its tag's last value, or its default
    when the tag is missing or empty. *)
Theorem tagged_line_parsed (tags : list (list N * option (list N)))
    (cmd text : list N) :
  Forall tagOk tags → (32%N ∉ renderTags tags) →
  ¬ substring (Js.lit " :") cmd →
  parsePrivmsg (Js.lit "@" ++ renderTags tags ++ Js.lit " " ++ cmd
                ++ Js.lit " :" ++ text)
  = Some {| name := tagOr tags (Js.lit "display-name") (Js.lit "Unknown");
            color := tagOr tags (Js.lit "color") (Js.lit "#ffffff");
            htmlParts := Emote.buildMessageHtmlParts text
                           (tagOr tags (Js.lit "emotes") []);
            badges := tagOr tags (Js.lit "badges") [];
            roomId := tagOr tags (Js.lit "room-id") [] |}.
Proof.
  intros Hok Hsp Hcmd. unfold parsePrivmsg.
  change (Js.lit "@" ++ renderTags tags ++ Js.lit " " ++ cmd ++ Js.lit " :" ++ text)
    with (64%N :: renderTags tags ++ 32%N :: (cmd ++ 32%N :: 58%N :: text)).
  rewrite splitTags_tagged by done.
  change (Js.lit " :") with [32%N; 58%N] in *. unfold Js.indexOf.
  rewrite indexOf_marker_first by done.
  destruct (Z.eqb_spec (0 + Z.of_nat (length cmd)) (-1)); [lia|].
  replace (0 + Z.of_nat (length cmd) + 2)
    with (Z.of_nat (length (cmd ++ [32%N; 58%N]))).
  2:{ rewrite length_app. simpl. lia. }
  replace (cmd ++ 32%N :: 58%N :: text) with ((cmd ++ [32%N; 58%N]) ++ text)
    by (by rewrite <- (assoc_L (++))).
  rewrite sliceFrom_app.
  rewrite !get_consumed by (done || (vm_compute (Js.lit <$> _); set_solver)).
  reflexivity.
Qed.

Lemma tagged_line_parsed_witness :
  parsePrivmsg (Js.lit
    "@badges=;color=;display-name=Ann;emotes=25:7-11 :ann!ann@ann.tmi.twitch.tv PRIVMSG #ch :see :) Kappa")
  = Some {| name := Js.lit "Ann"; color := Js.lit "#ffffff";
            htmlParts := [Js.lit "see :) "; Emote.emoteImg (Js.lit "25")];
            badges := []; roomId := [] |}.
Proof.
  apply (tagged_line_parsed
    [(Js.lit "badges", Some []); (Js.lit "color", Some []);
     (Js.lit "display-name", Some (Js.lit "Ann"));
     (Js.lit "emotes", Some (Js.lit "25:7-11"))]
    (Js.lit ":ann!ann@ann.tmi.twitch.tv PRIVMSG #ch") (Js.lit "see :) Kappa")).
  - repeat constructor; simpl; try (intros v [= <-]); vm_compute (Js.lit _);
      not_in_list.
  - vm_compute (renderTags _). not_in_list.
  - apply indexOf_none. vm_compute. reflexivity.
Defined.

(** ** The socket handler *)

Lemma splitCrLf_cons c s :
  Js.startsWith [13; 10]%N (c :: s) = false →
  splitCrLf (c :: s)
  = match splitCrLf s with
    | h :: t => (c :: h) :: t
    | [] => [[c]]
    end.
Proof.
  intros H. cbn [splitCrLf]. destruct s as [|d s]; [done|].
  cbn [Js.startsWith] in H. rewrite (N.eqb_sym 13 c), (N.eqb_sym 10 d) in H.
  rewrite andb_true_r in H. by rewrite H.
Qed.

Lemma splitCrLf_line l :
  ¬ substring [13; 10]%N l → splitCrLf l = [l].
Proof.
  induction l as [|c l IH]; intros Hn; [done|].
  rewrite splitCrLf_cons.
  - rewrite IH; [done|]. intros (pre & post & ->). apply Hn. by exists (c :: pre), post.
  - destruct (Js.startsWith _ _) eqn:E; [|done]. exfalso. apply Hn.
    apply startsWith_prefix in E as [post E]. by exists [], post.
Qed.

Lemma splitCrLf_app l rest :
  ¬ substring [13; 10]%N l →
  splitCrLf (l ++ 13%N :: 10%N :: rest) = l :: splitCrLf rest.
Proof.
  induction l as [|c l IH]; intros Hn.
  - reflexivity.
  - cbn [app]. rewrite splitCrLf_cons.
    + rewrite IH; [done|]. intros (pre & post & ->). apply Hn. by exists (c :: pre), post.
    + destruct (Js.startsWith _ _) eqn:E; [|done]. exfalso.
      apply startsWith_prefix in E as [post E].
      destruct l as [|d l]; [simpl in E; simplify_eq|].
      simpl in E. injection E as -> -> _. apply Hn. by exists [], l.
Qed.

Lemma splitCrLf_join lines :
  lines ≠ [] → Forall (λ l, ¬ substring [13; 10]%N l) lines →
  splitCrLf (Js.join [13; 10]%N lines) = lines.
Proof.
  induction lines as [|l lines IH]; [done|].
  intros _ [Hl Hls]%Forall_cons.
  destruct lines as [|l' lines]; [by apply splitCrLf_line|].
  change (Js.join [13; 10]%N (l :: l' :: lines))
    with (l ++ 13%N :: 10%N :: Js.join [13; 10]%N (l' :: lines)).
  rewrite splitCrLf_app by done. f_equal. by apply IH.
Qed.

Lemma indexOfFrom_found needle (l : list N) i :
  Js.indexOfFrom needle l i ≠ -1 → substring needle l.
Proof.
  revert i. induction l as [|c l IH]; intros i; simpl.
  - destruct (Js.startsWith needle []) eqn:Hp; [|done]. intros _.
    apply startsWith_prefix in Hp as [post Hp]. by exists [], post.
  - destruct (Js.startsWith needle (c :: l)) eqn:Hp.
    + intros _. apply startsWith_prefix in Hp as [post Hp]. by exists [], post.
    + intros H. destruct (IH _ H) as (pre & post & ->). by exists (c :: pre), post.
Qed.

Lemma includes_substring needle (l : list N) :
  includes needle l = true ↔ substring needle l.
Proof.
  unfold includes.
  destruct (Z.eqb_spec (Js.indexOf needle l) (-1)) as [E|E]; simpl.
  - apply indexOf_none in E. by split.
  - split; [intros _|done]. by apply (indexOfFrom_found needle l 0).
Qed.

(** X8: a frame of lines joined by CR LF gives the events of its lines,
    in their order: those of the lines that hold [" PRIVMSG #"] and
    parse; empty lines and other lines give nothing.  A frame that starts
    with [PING] is answered and gives no event, whatever lines follow. *)
Theorem frame_events (lines : list (list N)) :
  Forall (λ l, ¬ substring [13; 10]%N l) lines →
  (Js.startsWith (Js.lit "PING") (Js.join [13; 10]%N lines) = true →
   onMessage (Js.join [13; 10]%N lines) = Pong)
  ∧ (Js.startsWith (Js.lit "PING") (Js.join [13; 10]%N lines) = false →
     onMessage (Js.join [13; 10]%N lines)
     = Messages (omap parsePrivmsg
         (filter (λ l, Is_true (includes (Js.lit " PRIVMSG #") l)) lines)))
  ∧ ∀ l, Is_true (includes (Js.lit " PRIVMSG #") l)
         ↔ substring (Js.lit " PRIVMSG #") l.
Proof.
  intros Hl. unfold onMessage. split; [by intros ->|].
  split; [|intros l; rewrite Is_true_true; apply includes_substring].
  intros ->. f_equal.
  destruct lines as [|l0 lines0]; [reflexivity|].
  rewrite splitCrLf_join by done. f_equal.
  generalize (l0 :: lines0). clear. intros lines.
  induction lines as [|l lines IH]; [reflexivity|].
  destruct l as [|c l].
  - rewrite filter_cons_False by (simpl; tauto).
    rewrite (filter_cons_False _ []); [done|]. vm_compute. tauto.
  - by rewrite filter_cons_True, !filter_cons, IH by done.
Qed.

Lemma frame_events_witness :
  onMessage (Js.lit ":tmi.twitch.tv 001 justinfan1 :Welcome" ++ [13; 10]%N
             ++ Js.lit "@display-name=Ann :ann PRIVMSG #ch :hi" ++ [13; 10]%N)
  = Messages [{| name := Js.lit "Ann"; color := Js.lit "#ffffff";
                 htmlParts := [Js.lit "hi"]; badges := []; roomId := [] |}].
Proof.
  pose proof (frame_events
    [Js.lit ":tmi.twitch.tv 001 justinfan1 :Welcome";
     Js.lit "@display-name=Ann :ann PRIVMSG #ch :hi"; []]) as (_ & H & _).
  - repeat constructor; apply indexOf_none; vm_compute; reflexivity.
  - apply H. vm_compute. reflexivity.
Defined.

(** ** Configuration *)

Lemma mathMin_ofZ a b :
  Config.mathMin (Num.ofZ a) (Num.ofZ b) = Num.ofZ (Z.min a b).
Proof.
  unfold Config.mathMin. cbn [Num.ofZ]. fold (Num.ofZ a) (Num.ofZ b).
  rewrite lt_ofZ. destruct (Z.ltb_spec b a); f_equal; lia.
Qed.

Lemma mathMax_ofZ a b :
  Config.mathMax (Num.ofZ a) (Num.ofZ b) = Num.ofZ (Z.max a b).
Proof.
  unfold Config.mathMax. cbn [Num.ofZ]. fold (Num.ofZ a) (Num.ofZ b).
  rewrite lt_ofZ. destruct (Z.ltb_spec a b); f_equal; lia.
Qed.

Lemma value_nested_ind (P : Config.value → Prop) :
  P Config.VUndefined → P Config.VNull →
  (∀ b, P (Config.VBool b)) → (∀ n, P (Config.VNum n)) → (∀ s, P (Config.VStr s)) →
  (∀ items, Forall P items → P (Config.VArr items)) →
  (∀ props, P (Config.VObj props)) →
  ∀ v, P v.
Proof.
  intros Hu Hn Hb Hm Hs Ha Ho. fix IH 1.
  intros [| |b|n|s|items|props]; [done|done|apply Hb|apply Hm|apply Hs| |apply Ho].
  apply Ha. induction items as [|x items IHitems]; constructor; [apply IH|exact IHitems].
Qed.

(** [String(v)] throws exactly on the values of [raises]. *)
Lemma toString_raises v : Config.toString v = None ↔ Config.raises v.
Proof.
  induction v as [| |b|n|s|items IH|props] using value_nested_ind;
    try (split; [discriminate|inversion 1]).
  - cbn [Config.toString]. rewrite fmap_None, mapM_None, Exists_exists. split.
    + intros (x & Hx & Hnone). apply (Config.raises_arr items x Hx).
      rewrite Forall_forall in IH. apply IH; [done|].
      by destruct x.
    + inversion 1 as [|items' x Hx Hr]; subst. exists x. split; [done|].
      rewrite Forall_forall in IH. apply (IH x Hx) in Hr.
      destruct x; try done; by inversion Hr.
  - cbn [Config.toString]. unfold Config.hasOwn. case_bool_decide as Hin.
    + split; [intros _; by constructor|done].
    + split; [discriminate|]. by inversion 1.
Qed.

(** [Number(v)] throws exactly on the values of [raises]; no primitive is
    one. *)
Lemma toNumber_raises v : Config.toNumber v = None ↔ Config.raises v.
Proof.
  destruct v as [| |b|n|s|items|props];
    try (split; [discriminate|inversion 1]);
    unfold Config.toNumber; rewrite fmap_None; apply toString_raises.
Qed.

(** X9: for every value that a configuration entry can hold, a primitive
    or an array or object of the defaults file, [clampInt] with an integer
    fallback inside integer bounds throws when [Number(value)] does, which
    is when the value is or holds an object with an own [toString], and
    otherwise gives an integer inside the bounds: the floor of the value
    clamped when the value converts to a finite number, the fallback
    otherwise.  So [cfg.max], once set, is an integer from 1 to 200 and
    [cfg.ttl] one from 0 to 3600. *)
Theorem clampInt_within (value : Config.value) (fallback lo hi : Z) :
  lo <= fallback <= hi →
  (Config.toNumber value = None ↔ Config.raises value)
  ∧ match Config.toNumber value with
    | None =>
        Config.clampInt value (Num.ofZ fallback) (Num.ofZ lo) (Num.ofZ hi) = None
    | Some n =>
        ∃ z, Config.clampInt value (Num.ofZ fallback) (Num.ofZ lo) (Num.ofZ hi)
             = Some (Num.ofZ z)
             ∧ lo <= z <= hi
             ∧ match n with
               | Num.Fin q => z = Z.max lo (Z.min hi (Qfloor q))
               | _ => z = fallback
               end
    end.
Proof.
  intros H. split; [apply toNumber_raises|]. unfold Config.clampInt.
  destruct (Config.toNumber value) as [[|s|q]|]; cbn [mbind option_bind negb Num.isFinite].
  - by exists fallback.
  - by exists fallback.
  - exists (Z.max lo (Z.min hi (Qfloor q))).
    unfold Config.floor. rewrite mathMin_ofZ, mathMax_ofZ.
    split; [done|]. split; [lia|done].
  - done.
Qed.

Lemma clampInt_within_witness :
  Config.clampInt (Config.VStr (Js.lit "7.9")) (Num.ofZ 30) (Num.ofZ 1) (Num.ofZ 200)
  = Some (Num.ofZ 7)
  ∧ Config.clampInt (Config.VStr (Js.lit "lots")) (Num.ofZ 30) (Num.ofZ 1) (Num.ofZ 200)
    = Some (Num.ofZ 30)
  ∧ Config.clampInt (Config.VArr [Config.VNum (Num.ofZ 7)]) (Num.ofZ 30) (Num.ofZ 1)
      (Num.ofZ 200) = Some (Num.ofZ 7)
  ∧ Config.clampInt (Config.VObj [(Js.lit "valueOf", Config.VNum (Num.ofZ 1));
                                  (Js.lit "toString", Config.VNum (Num.ofZ 1))])
      (Num.ofZ 30) (Num.ofZ 1) (Num.ofZ 200) = None
  ∧ ∃ z, Config.clampInt (Config.VStr (Js.lit "1e9")) (Num.ofZ 22) (Num.ofZ 0)
           (Num.ofZ 3600) = Some (Num.ofZ z) ∧ 0 <= z <= 3600.
Proof.
  split; [vm_compute; reflexivity|]. split; [vm_compute; reflexivity|].
  split; [vm_compute; reflexivity|]. split; [vm_compute; reflexivity|].
  destruct (clampInt_within (Config.VStr (Js.lit "1e9")) 22 0 3600) as [_ Hc]; [lia|].
  change (Config.toNumber (Config.VStr (Js.lit "1e9")))
    with (Some (Num.ofString (Js.lit "1e9"))) in Hc.
  destruct Hc as (z & Hz & Hr & _). by exists z.
Defined.

Lemma Qltb_lt x y : Num.Qltb x y = true ↔ (x < y)%Q.
Proof.
  unfold Num.Qltb. rewrite negb_true_iff.
  destruct (Qle_bool y x) eqn:E.
  - apply Qle_bool_iff in E. split; [done|]. intros H. exfalso. by apply (Qlt_not_le x y).
  - split; [intros _|done]. apply Qnot_le_lt. intros H.
    apply Qle_bool_iff in H. congruence.
Qed.

Lemma Qltb_ge x y : Num.Qltb x y = false ↔ (y <= x)%Q.
Proof.
  unfold Num.Qltb. rewrite negb_false_iff. apply Qle_bool_iff.
Qed.

(** [Math.max(min, Math.min(max, n))] on finite numbers with
    [min <= max]. *)
Lemma clamp_finite (lo hi x : Q) :
  (lo <= hi)%Q →
  ∃ q, Config.mathMax (Num.Fin lo) (Config.mathMin (Num.Fin hi) (Num.Fin x)) = Num.Fin q
       ∧ (lo <= q)%Q ∧ (q <= hi)%Q ∧ (q == Qmax lo (Qmin hi x))%Q.
Proof.
  intros Hle. unfold Config.mathMin. cbn [Num.lt].
  destruct (Num.Qltb x hi) eqn:E1.
  - apply Qltb_lt in E1. unfold Config.mathMax. cbn [Num.lt].
    assert (Hmin : (Qmin hi x == x)%Q) by (apply Q.min_r; by apply Qlt_le_weak).
    destruct (Num.Qltb lo x) eqn:E2.
    + apply Qltb_lt in E2. exists x. split; [done|].
      split; [by apply Qlt_le_weak|]. split; [by apply Qlt_le_weak|].
      rewrite Hmin. symmetry. apply Q.max_r. by apply Qlt_le_weak.
    + apply Qltb_ge in E2. exists lo. split; [done|].
      split; [apply Qle_refl|]. split; [done|].
      rewrite Hmin. symmetry. by apply Q.max_l.
  - apply Qltb_ge in E1. unfold Config.mathMax. cbn [Num.lt].
    assert (Hmin : (Qmin hi x == hi)%Q) by (by apply Q.min_l).
    destruct (Num.Qltb lo hi) eqn:E2.
    + exists hi. split; [done|]. split; [done|]. split; [apply Qle_refl|].
      rewrite Hmin. symmetry. by apply Q.max_r.
    + apply Qltb_ge in E2. exists lo. split; [done|].
      split; [apply Qle_refl|]. split; [done|].
      rewrite Hmin. symmetry. by apply Q.max_l.
Qed.

(** X10: for every value that a configuration entry can hold,
    [clampFloat] with a finite fallback inside finite bounds throws when
    [Number(value)] does, which is when the value is or holds an object
    with an own [toString], and otherwise gives a finite number inside the
    bounds: the value clamped when it converts to a finite number, the
    fallback otherwise.  So [cfg.fade], once set, lies between 0 and
    30. *)
Theorem clampFloat_within (value : Config.value) (fallback lo hi : Q) :
  (lo <= fallback)%Q → (fallback <= hi)%Q →
  (Config.toNumber value = None ↔ Config.raises value)
  ∧ match Config.toNumber value with
    | None =>
        Config.clampFloat value (Num.Fin fallback) (Num.Fin lo) (Num.Fin hi) = None
    | Some n =>
        ∃ q, Config.clampFloat value (Num.Fin fallback) (Num.Fin lo) (Num.Fin hi)
             = Some (Num.Fin q)
             ∧ (lo <= q)%Q ∧ (q <= hi)%Q
             ∧ match n with
               | Num.Fin x => (q == Qmax lo (Qmin hi x))%Q
               | _ => q = fallback
               end
    end.
Proof.
  intros Hlo Hhi. split; [apply toNumber_raises|]. unfold Config.clampFloat.
  destruct (Config.toNumber value) as [[|s|x]|]; cbn [mbind option_bind negb Num.isFinite].
  - by exists fallback.
  - by exists fallback.
  - destruct (clamp_finite lo hi x) as (q & -> & ? & ? & ?);
      [by apply (Qle_trans _ fallback)|].
    by exists q.
  - done.
Qed.

Lemma clampFloat_within_witness :
  Config.clampFloat (Config.VStr (Js.lit "1.5")) (Num.ofZ 2) (Num.ofZ 0) (Num.ofZ 30)
  = Some (Num.Fin (3 # 2))
  ∧ Config.clampFloat (Config.VArr [Config.VArr [Config.VNum (Num.Fin (3 # 2))]])
      (Num.ofZ 2) (Num.ofZ 0) (Num.ofZ 30) = Some (Num.Fin (3 # 2))
  ∧ Config.clampFloat (Config.VArr [Config.VObj [(Js.lit "toString", Config.VNull)]])
      (Num.ofZ 2) (Num.ofZ 0) (Num.ofZ 30) = None
  ∧ ∃ q, Config.clampFloat (Config.VStr (Js.lit "-0.25")) (Num.Fin 2) (Num.Fin 0)
           (Num.Fin 30) = Some (Num.Fin q) ∧ (0 <= q)%Q ∧ (q <= 30)%Q.
Proof.
  split; [vm_compute; reflexivity|]. split; [vm_compute; reflexivity|].
  split; [vm_compute; reflexivity|].
  destruct (clampFloat_within (Config.VStr (Js.lit "-0.25")) 2 0 30) as [_ Hc];
    [done|done|].
  change (Config.toNumber (Config.VStr (Js.lit "-0.25")))
    with (Some (Num.ofString (Js.lit "-0.25"))) in Hc.
  destruct Hc as (q & Hq & H1 & H2 & _). by exists q.
Defined.

Lemma skipChar_spec c s :
  ∃ k, s = replicate k c ++ Config.skipChar c s
       ∧ head (Config.skipChar c s) ≠ Some c.
Proof.
  induction s as [|x s IH]; simpl.
  - by exists 0%nat.
  - destruct (N.eqb_spec x c) as [->|Hx].
    + destruct IH as (k & Hk & Hh). exists (S k). split; [|done].
      simpl. by rewrite <- Hk.
    + exists 0%nat. split; [done|]. simpl. congruence.
Qed.

(** X11: stripping the badge proxy removes exactly the slashes that the
    string ends with: what is left does not end with a slash, and
    stripping it again changes nothing. *)
Theorem stripSlashes_spec (s : list N) :
  (∃ k, s = Config.stripSlashes s ++ replicate k 47%N)
  ∧ last (Config.stripSlashes s) ≠ Some 47%N
  ∧ Config.stripSlashes (Config.stripSlashes s) = Config.stripSlashes s.
Proof.
  unfold Config.stripSlashes.
  destruct (skipChar_spec 47 (rev s)) as (k & Hk & Hh).
  assert (Hlast : last (rev (Config.skipChar 47 (rev s))) ≠ Some 47%N).
  { rewrite rev_alt. fold (reverse (Config.skipChar 47 (rev s))).
    rewrite last_reverse. exact Hh. }
  split; [|split; [done|]].
  - exists k. apply (f_equal (@rev N)) in Hk.
    rewrite rev_involutive, rev_app_distr in Hk.
    rewrite Hk at 1. f_equal.
    rewrite rev_alt. apply reverse_replicate.
  - rewrite rev_involutive.
    destruct (Config.skipChar 47 (rev s)) as [|x t]; [done|]. simpl in *.
    destruct (N.eqb_spec x 47); [congruence|done].
Qed.

(** ** Badge keys and badge tables *)

Lemma skipWhite_drop s :
  (∃ k, Num.skipWhite s = drop k s)
  ∧ ∀ c, head (Num.skipWhite s) = Some c → Num.isWhite c = false.
Proof.
  induction s as [|x s [[k Hk] Hh]]; simpl.
  - split; [by exists 0%nat|done].
  - destruct (Num.isWhite x) eqn:E.
    + split; [by exists (S k)|done].
    + split; [by exists 0%nat|]. simpl. by intros c [= <-].
Qed.

Lemma skipWhite_id s :
  (∀ c, head s = Some c → Num.isWhite c = false) → Num.skipWhite s = s.
Proof.
  destruct s as [|x s]; [done|]. intros H. simpl. by rewrite (H x).
Qed.

Lemma head_rev (s : list N) : head (rev s) = last s.
Proof. rewrite rev_alt. apply head_reverse. Qed.

Lemma last_rev (s : list N) : last (rev s) = head s.
Proof. rewrite rev_alt. apply last_reverse. Qed.

Lemma last_drop (s : list N) k c : last (drop k s) = Some c → last s = Some c.
Proof.
  intros H. rewrite <- (take_drop k s), last_app. by rewrite H.
Qed.

Lemma elem_of_rev (c : N) (s : list N) : c ∈ rev s ↔ c ∈ s.
Proof. rewrite rev_alt. apply elem_of_reverse. Qed.

Lemma elem_of_drop (c : N) k (s : list N) : c ∈ drop k s → c ∈ s.
Proof.
  intros H. rewrite <- (take_drop k s). apply elem_of_app. by right.
Qed.

Lemma trim_ends s :
  (∀ c, head (Num.trim s) = Some c → Num.isWhite c = false)
  ∧ (∀ c, last (Num.trim s) = Some c → Num.isWhite c = false)
  ∧ ∀ c, c ∈ Num.trim s → c ∈ s.
Proof.
  unfold Num.trim.
  destruct (skipWhite_drop s) as [[k Hk] Hh].
  destruct (skipWhite_drop (rev (Num.skipWhite s))) as [[j Hj] Hh'].
  split; [|split].
  - intros c. rewrite head_rev, Hj. intros H%last_drop.
    rewrite last_rev in H. by apply Hh.
  - intros c. rewrite last_rev. apply Hh'.
  - intros c. rewrite Hj, elem_of_rev.
    intros H%elem_of_drop. rewrite elem_of_rev in H.
    rewrite Hk in H. by apply elem_of_drop in H.
Qed.

Lemma trim_clean k :
  (∀ c, head k = Some c → Num.isWhite c = false) →
  (∀ c, last k = Some c → Num.isWhite c = false) →
  Num.trim k = k.
Proof.
  intros Hh Hl. unfold Num.trim. rewrite (skipWhite_id k) by done.
  rewrite skipWhite_id; [apply rev_involutive|].
  intros c. rewrite head_rev. apply Hl.
Qed.

Lemma split_pieces sep s : Forall (λ p, sep ∉ p) (Js.split sep s).
Proof.
  induction s as [|c s IH]; simpl.
  - constructor; [apply not_elem_of_nil|constructor].
  - destruct (N.eqb_spec c sep) as [->|Hc].
    + constructor; [apply not_elem_of_nil|done].
    + destruct (Js.split sep s) as [|h t]; [repeat constructor; set_solver|].
      apply Forall_cons in IH as [Hh Ht]. constructor; [|done].
      apply not_elem_of_cons. split; [congruence|done].
Qed.

(** X12: every key that [parseBadgesTag] gives is clean: not empty,
    without a comma and without white space at its ends. *)
Theorem parseBadgesTag_clean (badgesTag : list N) :
  Forall cleanKey (parseBadgesTag badgesTag).
Proof.
  unfold parseBadgesTag. destruct (negb (Js.truthy badgesTag)); [constructor|].
  apply Forall_forall. intros k [Hk Hin]%list_elem_of_filter.
  apply list_elem_of_fmap in Hin as (p & -> & Hp).
  pose proof (split_pieces 44 badgesTag) as Hs. rewrite Forall_forall in Hs.
  destruct (trim_ends p) as (Hh & Hl & Hsub).
  split; [by destruct (Num.trim p)|]. split; [|done].
  intros Hc. apply (Hs p Hp). by apply Hsub.
Qed.

(** X13: clean keys joined by commas are read back as they are; the
    empty tag gives no key. *)
Theorem parseBadgesTag_join (keys : list (list N)) :
  Forall cleanKey keys → parseBadgesTag (Js.join [44%N] keys) = keys.
Proof.
  intros Hk. unfold parseBadgesTag.
  destruct keys as [|k keys]; [reflexivity|].
  assert (Ht : Js.truthy (Js.join [44%N] (k :: keys)) = true).
  { apply join_truthy. apply Forall_cons in Hk as [(Hne & _) _]. by destruct k. }
  rewrite Ht. cbn [negb].
  assert (Hs : Js.split 44 (Js.join [44%N] (k :: keys)) = k :: keys).
  { apply split_join; [done|].
    eapply Forall_impl; [exact Hk|]. by intros x (_ & ? & _). }
  rewrite Hs. clear Hs Ht.
  induction Hk as [|x l (Hne & _ & Hh & Hl) Hk IH]; [reflexivity|].
  cbn [fmap list_fmap]. rewrite trim_clean by done.
  rewrite filter_cons_True by (by destruct x). f_equal. apply IH.
Qed.

Lemma parseBadgesTag_join_witness :
  parseBadgesTag (Js.lit "moderator/1,subscriber/12")
  = [Js.lit "moderator/1"; Js.lit "subscriber/12"].
Proof.
  apply (parseBadgesTag_join [Js.lit "moderator/1"; Js.lit "subscriber/12"]).
  repeat constructor; try discriminate; try (vm_compute (Js.lit _); not_in_list);
    intros c [= <-]; reflexivity.
Defined.

Lemma fold_entries_lookup (entries : list (list N * option (list N)))
    (m : Badge.table) key :
  fold_left (λ m e, <[e.1 := e.2]> m) entries m !! key
  = match lastEntry key entries with Some v => Some v | None => m !! key end.
Proof.
  revert m. induction entries as [|e entries IH]; intros m; [done|].
  simpl. rewrite IH. destruct (lastEntry key entries); [done|].
  destruct (bool_decide_reflect (e.1 = key)) as [<-|Hne].
  - apply lookup_insert_eq.
  - by apply lookup_insert_ne.
Qed.

Lemma buildBadgeMap_entries data :
  Badge.buildBadgeMap data
  = fold_left (λ m e, <[e.1 := e.2]> m) (badgeEntries data) ∅.
Proof.
  unfold Badge.buildBadgeMap, badgeEntries. generalize (∅ : Badge.table).
  induction data as [|set data IH]; intros m; [done|].
  cbn [fold_left flat_map]. rewrite fold_left_app, <- IH. f_equal.
  generalize m. induction (Badge.versions set) as [|v vs IHv]; intros m'; [done|].
  cbn [fold_left fmap list_fmap]. by rewrite <- IHv.
Qed.

(** X14: the table built from a badge response holds, for every key
    ["set/version"], what the last version with that key in the response
    has: its 2x image when that is not empty, its 1x image otherwise; a
    key of no version is not in the table. *)
Theorem buildBadgeMap_lookup (data : list Badge.badgeSet) (key : list N) :
  Badge.buildBadgeMap data !! key = lastEntry key (badgeEntries data).
Proof.
  rewrite buildBadgeMap_entries, fold_entries_lookup.
  destruct (lastEntry key (badgeEntries data)); [done|apply lookup_empty].
Qed.

(** ** The badge cache: what the code does keep *)

(** X15: without a badge proxy nothing is fetched and the cache stays
    empty, whatever is called and settled. *)
Theorem no_proxy_no_fetch (badgeProxy : list N) (es : list Badge.event) :
  Js.truthy badgeProxy = false →
  Badge.cache (Badge.run badgeProxy Badge.start es) = Badge.emptyCache
  ∧ Badge.fetches (Badge.run badgeProxy Badge.start es) = [].
Proof.
  intros Hp.
  assert (H : ∀ w, quiet w → Badge.cache w = Badge.emptyCache → Badge.fetches w = [] →
    Badge.cache (Badge.run badgeProxy w es) = Badge.emptyCache
    ∧ Badge.fetches (Badge.run badgeProxy w es) = []).
  { induction es as [|e es IH]; intros w Hq Hc Hf; [done|].
    unfold quiet in Hq. pose proof (proj1 (Forall_lookup _ _) Hq) as Hq'.
    simpl. apply IH.
    - destruct e as [b|t s]; simpl.
      + unfold Badge.enter. rewrite Hp. simpl.
        apply Forall_app. split; [done|]. by repeat constructor.
      + destruct (Badge.tasks w !! t) as [tk|] eqn:Ht; [|done].
        by rewrite (Hq' t tk Ht).
    - destruct e as [b|t s]; simpl.
      + unfold Badge.enter. by rewrite Hp.
      + destruct (Badge.tasks w !! t) as [tk|] eqn:Ht; [|done].
        by rewrite (Hq' t tk Ht).
    - destruct e as [b|t s]; simpl.
      + unfold Badge.enter. rewrite Hp. simpl. by rewrite Hf.
      + destruct (Badge.tasks w !! t) as [tk|] eqn:Ht; [|done].
        by rewrite (Hq' t tk Ht). }
  apply H; [|done|done]. constructor.
Qed.

Lemma no_proxy_no_fetch_witness :
  Badge.fetches (Badge.run [] Badge.start
    [Badge.Call (Js.lit "42"); Badge.Settle 0 (Badge.Response true);
     Badge.Call (Js.lit "7")]) = [].
Proof.
  apply (no_proxy_no_fetch [] [Badge.Call (Js.lit "42");
    Badge.Settle 0 (Badge.Response true); Badge.Call (Js.lit "7")]).
  reflexivity.
Defined.

Lemma channelPart_slot b' c b t :
  Badge.channels c !! b = Some t →
  Badge.channels (Badge.channelPart b' c).1.1 !! b = Some t
  ∧ (b' = b → (Badge.channelPart b' c).2 = Badge.Returned).
Proof.
  intros Hc. unfold Badge.channelPart.
  destruct (negb (Js.truthy b')); [done|].
  destruct (bool_decide_reflect (is_Some (Badge.channels c !! b'))) as [Hs|Hs]; [done|].
  assert (Hne : b' ≠ b) by (intros ->; apply Hs; by rewrite Hc).
  destruct (Badge.wellFormed b'); simpl; [done|].
  by rewrite lookup_insert_ne.
Qed.

Lemma resume_slot b' q s c0 c fs p b t :
  Badge.channels c0 !! b = Some t →
  (b' = b → awaitsChannel {| Badge.broadcasterId := b'; Badge.at_ := q |} = false) →
  Badge.resume b' q s c0 = Some (c, fs, p) →
  Badge.channels c !! b = Some t
  ∧ (b' = b → awaitsChannel {| Badge.broadcasterId := b'; Badge.at_ := p |} = false).
Proof.
  intros Hb Hq Hr.
  assert (Hpart : ∀ tb, Badge.channelPart b' (Badge.setGlobal tb c0) = (c, fs, p) →
    Badge.channels c !! b = Some t
    ∧ (b' = b → awaitsChannel {| Badge.broadcasterId := b'; Badge.at_ := p |} = false)).
  { intros tb Heq.
    destruct (channelPart_slot b' (Badge.setGlobal tb c0) b t Hb) as [H1 H2].
    rewrite Heq in H1, H2. simpl in H1, H2. split; [done|].
    intros Hbb. by rewrite (H2 Hbb). }
  assert (Hset : ∀ tb, awaitsChannel {| Badge.broadcasterId := b'; Badge.at_ := q |} = true →
    Badge.channels (Badge.setChannel b' tb c0) !! b = Some t).
  { intros tb Ha. simpl. rewrite lookup_insert_ne; [done|].
    intros Hbb. rewrite (Hq Hbb) in Ha. discriminate. }
  destruct q, s as [| [|] |data]; simpl in Hr; try discriminate;
    injection Hr as Hr; try (by eapply Hpart).
  - by simplify_eq.
  - simplify_eq. split; [by apply Hset|done].
  - simplify_eq. split; [done|]. intros Hbb. by specialize (Hq Hbb).
  - simplify_eq. split; [by apply Hset|done].
  - simplify_eq. split; [by apply Hset|done].
  - simplify_eq. split; [by apply Hset|done].
Qed.

Lemma step_slot_kept proxy w e b t :
  Badge.channels (Badge.cache w) !! b = Some t → noChannelWait b w →
  Badge.channels (Badge.cache (Badge.step proxy w e)) !! b = Some t
  ∧ noChannelWait b (Badge.step proxy w e).
Proof.
  intros Hb Hn.
  destruct e as [b'|i s]; simpl.
  - unfold Badge.enter.
    destruct (negb (Js.truthy proxy)); simpl.
    { split; [done|].
      intros j tk [[_ H]|[_ <-]]%lookup_snoc_Some; [by apply (Hn j)|done]. }
    destruct (Badge.globalLoaded (Badge.cache w)); simpl.
    + destruct (channelPart_slot b' (Badge.cache w) b t Hb) as (H1 & H2).
      destruct (Badge.channelPart b' (Badge.cache w)) as [[c fs] p]. simpl in *.
      split; [done|].
      intros j tk [[_ H]|[_ <-]]%lookup_snoc_Some; [by apply (Hn j)|].
      simpl. intros Hbb. by rewrite (H2 Hbb).
    + split; [done|].
      intros j tk [[_ H]|[_ <-]]%lookup_snoc_Some; [by apply (Hn j)|done].
  - destruct (Badge.tasks w !! i) as [[b' q]|] eqn:Hi; [|done].
    destruct (Badge.resume _ _ _ _) as [[[c fs] p]|] eqn:Hr; [|done].
    simpl in *.
    destruct (resume_slot b' q s (Badge.cache w) c fs p b t Hb) as [H1 H2]; [|done|].
    { intros Hbb. by apply (Hn i _ Hi). }
    split; [done|].
    intros j tk [(-> & <- & _)|[_ H]]%list_lookup_insert_Some; [|by apply (Hn j)].
    simpl. apply H2.
Qed.

(** X16: once a channel slot holds a table, the empty table of a failed
    fetch included, and no fetch for that room is in flight, the slot
    keeps that table for good and the room is not fetched again. *)
Theorem channel_slot_final (badgeProxy : list N) (w : Badge.world)
    (es : list Badge.event) (b : list N) (t : Badge.table) :
  Badge.channels (Badge.cache w) !! b = Some t → noChannelWait b w →
  Badge.channels (Badge.cache (Badge.run badgeProxy w es)) !! b = Some t
  ∧ Badge.issued (Badge.ChannelBadges b) (Badge.run badgeProxy w es)
    = Badge.issued (Badge.ChannelBadges b) w.
Proof.
  intros Hb Hn. split.
  - revert w Hb Hn. induction es as [|e es IH]; intros w Hb Hn; [done|].
    simpl. destruct (step_slot_kept badgeProxy w e b t Hb Hn) as [H1 H2].
    by apply IH.
  - apply channel_slot_settled. by rewrite Hb.
Qed.

Lemma channel_slot_final_witness :
  let room := Js.lit "42" in
  let proxy := Js.lit "https://proxy" in
  let failed := Badge.run proxy Badge.start
    [Badge.Call room; Badge.Settle 0 Badge.Rejected;
     Badge.Settle 0 (Badge.Response false)] in
  let later := Badge.run proxy failed
    [Badge.Call room; Badge.Call (Js.lit "7"); Badge.Settle 2 (Badge.Response true);
     Badge.Call room] in
  Badge.channels (Badge.cache failed) !! room = Some ∅
  ∧ Badge.channels (Badge.cache later) !! room = Some ∅
  ∧ Badge.issued (Badge.ChannelBadges room) later = 1%nat.
Proof.
  intros room proxy failed later.
  assert (Hf : Badge.channels (Badge.cache failed) !! room = Some ∅)
    by (vm_compute; reflexivity).
  split; [exact Hf|].
  destruct (channel_slot_final proxy failed
    [Badge.Call room; Badge.Call (Js.lit "7"); Badge.Settle 2 (Badge.Response true);
     Badge.Call room] room ∅ Hf) as [H1 H2].
  - intros i tk Hi _. destruct i as [|[|i]]; vm_compute in Hi; [|done|done].
    by injection Hi as <-.
  - split; [exact H1|]. fold later in H2. rewrite H2. vm_compute. reflexivity.
Defined.

(** ** Requests that do not overlap fetch a room once *)

Lemma enter_fetch proxy b' c b :
  Badge.ChannelBadges b ∈ (Badge.enter proxy b' c).1.2 →
  b = b' ∧ (Badge.enter proxy b' c).2 = Badge.AwaitChannelFetch.
Proof.
  unfold Badge.enter, Badge.channelPart.
  repeat case_match; simpl; intros Hin;
    try (by apply elem_of_nil in Hin);
    apply list_elem_of_singleton in Hin; by simplify_eq.
Qed.

Lemma resume_fetch b' q s c r b :
  Badge.resume b' q s c = Some r →
  q ≠ Badge.Returned
  ∧ (Badge.ChannelBadges b ∈ r.1.2 →
     b = b' ∧ r.2 = Badge.AwaitChannelFetch
     ∧ awaitsChannel {| Badge.broadcasterId := b'; Badge.at_ := q |} = false)
  ∧ (awaitsChannel {| Badge.broadcasterId := b'; Badge.at_ := q |} = true →
     awaitsChannel {| Badge.broadcasterId := b'; Badge.at_ := r.2 |} = true
     ∨ is_Some (Badge.channels r.1.1 !! b')).
Proof.
  intros Hr.
  assert (Hpart : ∀ c0, Badge.ChannelBadges b ∈ (Badge.channelPart b' c0).1.2 →
    b = b' ∧ (Badge.channelPart b' c0).2 = Badge.AwaitChannelFetch).
  { intros c0. unfold Badge.channelPart.
    repeat case_match; simpl; intros Hin;
      try (by apply elem_of_nil in Hin);
      apply list_elem_of_singleton in Hin; by simplify_eq. }
  destruct q, s as [| [|] |data]; simpl in Hr; try discriminate;
    injection Hr as <-; (split; [done|]); simpl;
    (split; [first [ intros Hin; by apply elem_of_nil in Hin
                   | intros Hin; destruct (Hpart _ Hin) as [-> ->]; done ]|]);
    try done; intros _; try (by left); right; by rewrite lookup_insert_eq.
Qed.

Lemma count_fetch (e : Badge.endpoint) (fs : list Badge.endpoint) :
  (length fs <= 1)%nat →
  length (filter (λ x, x = e) fs) = (if bool_decide (e ∈ fs) then 1 else 0)%nat.
Proof.
  destruct fs as [|x [|y fs]]; intros H; [|  |simpl in H; lia].
  - by rewrite bool_decide_eq_false_2 by apply not_elem_of_nil.
  - destruct (decide (x = e)) as [->|Hne].
    + rewrite filter_cons_True by done. by rewrite bool_decide_eq_true_2 by left.
    + rewrite filter_cons_False by done.
      rewrite bool_decide_eq_false_2; [done|].
      intros Hin%list_elem_of_singleton. congruence.
Qed.

Lemma seq_start : seqInv Badge.start.
Proof.
  split.
  - intros i j tki tkj Hi. simpl in Hi. by rewrite lookup_nil in Hi.
  - intros b. unfold Badge.issued. simpl. lia.
  - intros b. unfold Badge.issued. simpl. done.
Qed.

Lemma seq_step proxy w e :
  seqInv w →
  match e with Badge.Call _ => quiet w | Badge.Settle _ _ => True end →
  seqInv (Badge.step proxy w e).
Proof.
  intros [Hone Hcount Howner] Hq.
  destruct (step_turn proxy w e) as (fs & Hfs & Ht).
  assert (Hiss : ∀ b, Badge.issued (Badge.ChannelBadges b) (Badge.step proxy w e)
    = (Badge.issued (Badge.ChannelBadges b) w
       + if bool_decide (Badge.ChannelBadges b ∈ fs) then 1 else 0)%nat).
  { intros b. unfold Badge.issued at 1.
    rewrite Hfs, issued_app, count_fetch; [done|]. apply (turn_one _ _ _ Ht). }
  destruct e as [b'|i s].
  - (* a call, made when every invocation has returned *)
    unfold quiet in Hq. pose proof (proj1 (Forall_lookup _ _) Hq) as Hq'.
    assert (Hold : ∀ b, Badge.issued (Badge.ChannelBadges b) w = 1%nat →
      is_Some (Badge.channels (Badge.cache w) !! b)).
    { intros b Hb. destruct (Howner b Hb) as [|(i0 & tk0 & Hi0 & _ & Ha)]; [done|].
      rewrite (Hq' _ _ Hi0) in Ha || (unfold awaitsChannel in Ha; rewrite (Hq' _ _ Hi0) in Ha).
      done. }
    pose proof (enter_fetch proxy b' (Badge.cache w)) as Hent.
    revert Hfs Ht Hiss Hent. simpl.
    destruct (Badge.enter proxy b' (Badge.cache w)) as [[c fs'] p]. simpl.
    intros Hfs Ht Hiss Hent. apply app_inv_head in Hfs as <-.
    split; simpl.
    + intros i j tki tkj [[_ Hi]|[-> <-]]%lookup_snoc_Some
        [[_ Hj]|[-> <-]]%lookup_snoc_Some Hni Hnj; try done.
      * by destruct Hni; apply (Hq' i).
      * by destruct Hni; apply (Hq' i).
      * by destruct Hnj; apply (Hq' j).
    + intros b. rewrite Hiss. case_bool_decide as Hin; [|specialize (Hcount b); lia].
      pose proof (turn_channel_fetch _ _ _ Ht b Hin) as Hnone.
      specialize (Hcount b).
      destruct (decide (Badge.issued (Badge.ChannelBadges b) w = 1%nat)) as [H1|]; [|lia].
      destruct (Hold b H1) as [? Hs]. congruence.
    + intros b. rewrite Hiss. case_bool_decide as Hin.
      * intros _. right. destruct (Hent b Hin) as [-> ->].
        exists (length (Badge.tasks w)), {| Badge.broadcasterId := b'; Badge.at_ := Badge.AwaitChannelFetch |}.
        split; [by apply lookup_snoc_Some; right|done].
      * rewrite Nat.add_0_r. intros Hb. left.
        apply (turn_channels _ _ _ Ht), Hold, Hb.
  - (* a settlement *)
    clear Hq. revert Hfs Ht Hiss. simpl.
    destruct (Badge.tasks w !! i) as [[b' q]|] eqn:Hi.
    2:{ intros _ _ _. split; [exact Hone|exact Hcount|exact Howner]. }
    cbn [Badge.broadcasterId Badge.at_].
    destruct (Badge.resume b' q s (Badge.cache w)) as [[[c fs'] p]|] eqn:Hr.
    2:{ intros _ _ _. split; [exact Hone|exact Hcount|exact Howner]. }
    simpl. intros Hfs Ht Hiss. apply app_inv_head in Hfs as <-.
    assert (Hres : ∀ b, _) by (exact (λ b, resume_fetch b' q s (Badge.cache w) _ b Hr)).
    simpl in Hres.
    assert (Hq : q ≠ Badge.Returned) by (by destruct (Hres b') as [? _]).
    assert (Huniq : ∀ j tk, Badge.tasks w !! j = Some tk →
              Badge.at_ tk ≠ Badge.Returned → j = i).
    { intros j tk Hj Hn. by apply (Hone j i tk _ Hj Hi). }
    assert (Hold : ∀ b, Badge.issued (Badge.ChannelBadges b) w = 1%nat →
      is_Some (Badge.channels (Badge.cache w) !! b)
      ∨ (b = b' ∧ awaitsChannel {| Badge.broadcasterId := b'; Badge.at_ := q |} = true)).
    { intros b Hb. destruct (Howner b Hb) as [|(i0 & tk0 & Hi0 & Hb0 & Ha)]; [by left|].
      right. assert (i0 = i) as ->.
      { apply (Huniq i0 tk0 Hi0). intros E. unfold awaitsChannel in Ha. by rewrite E in Ha. }
      rewrite Hi in Hi0. injection Hi0 as <-. by simpl in Hb0. }
    split; simpl.
    + intros j1 j2 tk1 tk2
        [(-> & <- & _)|[Hne1 H1]]%list_lookup_insert_Some
        [(-> & <- & _)|[Hne2 H2]]%list_lookup_insert_Some Hn1 Hn2; try done.
      * destruct Hne2. symmetry. by apply (Huniq j2 tk2).
      * destruct Hne1. symmetry. by apply (Huniq j1 tk1).
      * rewrite (Huniq j1 tk1 H1 Hn1). symmetry. by apply (Huniq j2 tk2).
    + intros b. rewrite Hiss. case_bool_decide as Hin; [|specialize (Hcount b); lia].
      pose proof (turn_channel_fetch _ _ _ Ht b Hin) as Hnone.
      destruct (Hres b) as (_ & Hf & _). destruct (Hf Hin) as (-> & _ & Hnot).
      specialize (Hcount b').
      destruct (decide (Badge.issued (Badge.ChannelBadges b') w = 1%nat)) as [H1|]; [|lia].
      destruct (Hold b' H1) as [[? Hs]|[_ Ha]]; congruence.
    + intros b. rewrite Hiss. case_bool_decide as Hin.
      * intros _. right. destruct (Hres b) as (_ & Hf & _).
        destruct (Hf Hin) as (-> & -> & _).
        exists i, {| Badge.broadcasterId := b'; Badge.at_ := Badge.AwaitChannelFetch |}.
        split; [|done]. apply list_lookup_insert_Some. left.
        split; [done|]. split; [done|]. by apply lookup_lt_Some in Hi.
      * rewrite Nat.add_0_r. intros Hb.
        destruct (Hold b Hb) as [Hs|[-> Ha]].
        -- left. by apply (turn_channels _ _ _ Ht).
        -- destruct (Hres b') as (_ & _ & Hnext).
           destruct (Hnext Ha) as [Hp|Hs]; [|by left].
           right. exists i, {| Badge.broadcasterId := b'; Badge.at_ := p |}.
           split; [|done]. apply list_lookup_insert_Some. left.
           split; [done|]. split; [done|]. by apply lookup_lt_Some in Hi.
Qed.

(** X17: when the requests do not overlap, each call being made after
    every earlier invocation has returned, no channel endpoint is fetched
    more than once, whatever the rooms and the outcomes of the fetches. *)
Theorem one_at_a_time_fetch_once (badgeProxy : list N) (es : list Badge.event)
    (b : list N) :
  oneAtATime badgeProxy Badge.start es →
  (Badge.issued (Badge.ChannelBadges b) (Badge.run badgeProxy Badge.start es) <= 1)%nat.
Proof.
  intros Hes.
  assert (H : ∀ w, seqInv w → oneAtATime badgeProxy w es →
            seqInv (Badge.run badgeProxy w es)).
  { clear Hes. induction es as [|e es IH]; intros w Hw Hes; [done|].
    destruct Hes as [Hq Hes]. simpl. apply IH; [|done]. by apply seq_step. }
  apply (seq_count _ (H _ seq_start Hes)).
Qed.

Lemma one_at_a_time_fetch_once_witness :
  let room := Js.lit "42" in
  let es := [Badge.Call room; Badge.Settle 0 Badge.Rejected;
             Badge.Settle 0 (Badge.Response false);
             Badge.Call room; Badge.Call (Js.lit "7");
             Badge.Settle 2 (Badge.Response true); Badge.Settle 2 (Badge.Body []);
             Badge.Call room] in
  (Badge.issued (Badge.ChannelBadges room)
     (Badge.run (Js.lit "https://proxy") Badge.start es) <= 1)%nat.
Proof.
  intros room es.
  apply (one_at_a_time_fetch_once (Js.lit "https://proxy") es room).
  unfold es, room, quiet. cbn [oneAtATime].
  repeat split; vm_compute; repeat constructor.
Defined.

(** ** One request from an empty cache *)

(** X18: a single request for a room, from the empty cache, fetches the
    global table and then the table of the room, once each; every fetch
    leaves its table in its slot, the empty table when the proxy answered
    with an error status; and the badges of the room then come from the
    room's table first and from the global table otherwise. *)
Theorem single_request (badgeProxy b : list N)
    (globalBody channelBody : option (list Badge.badgeSet)) (keys : list (list N)) :
  Js.truthy badgeProxy = true → Js.truthy b = true → Badge.wellFormed b = true →
  let w := Badge.run badgeProxy Badge.start
             (Badge.Call b :: (Badge.Settle 0 <$> settlements globalBody)
              ++ (Badge.Settle 0 <$> settlements channelBody)) in
  w = {| Badge.cache := {| Badge.global := Some (tableOf globalBody);
                           Badge.channels := {[ b := tableOf channelBody ]};
                           Badge.globalLoaded := true |};
         Badge.tasks := [{| Badge.broadcasterId := b; Badge.at_ := Badge.Returned |}];
         Badge.fetches := [Badge.GlobalBadges; Badge.ChannelBadges b] |}
  ∧ Badge.buildBadgesFragment (Badge.cache w) keys b
    = omap (λ key, match usable (tableOf channelBody) key with
                   | Some url => Some url
                   | None => usable (tableOf globalBody) key
                   end) keys.
Proof.
  intros Hp Hb Hwf w.
  assert (Hno : bool_decide (is_Some ((∅ : gmap (list N) Badge.table) !! b)) = false).
  { apply bool_decide_eq_false_2. rewrite lookup_empty. by intros [? ?]. }
  assert (Hw : w = {| Badge.cache := {| Badge.global := Some (tableOf globalBody);
                           Badge.channels := {[ b := tableOf channelBody ]};
                           Badge.globalLoaded := true |};
         Badge.tasks := [{| Badge.broadcasterId := b; Badge.at_ := Badge.Returned |}];
         Badge.fetches := [Badge.GlobalBadges; Badge.ChannelBadges b] |}).
  { unfold w. destruct globalBody as [g|], channelBody as [d|];
      cbn [settlements fmap list_fmap app Badge.run fold_left Badge.step];
      unfold Badge.enter; rewrite Hp;
      cbn [negb Badge.globalLoaded Badge.emptyCache Badge.start Badge.cache
           Badge.tasks Badge.fetches app lookup list_lookup Badge.resume
           Badge.broadcasterId Badge.at_ insert list_insert];
      unfold Badge.channelPart; rewrite Hb, Hwf; cbn [negb];
      cbn [Badge.setGlobal Badge.markGlobalLoaded Badge.channels Badge.emptyCache];
      rewrite Hno;
      cbn [Badge.cache Badge.tasks Badge.fetches app lookup list_lookup Badge.resume
           Badge.broadcasterId Badge.at_ insert list_insert Badge.setChannel
           Badge.global Badge.channels Badge.globalLoaded tableOf];
      unfold Badge.setChannel, Badge.setGlobal, Badge.markGlobalLoaded, Badge.emptyCache;
      cbn [Badge.global Badge.channels Badge.globalLoaded];
      by rewrite insert_empty. }
  split; [exact Hw|]. rewrite Hw, buildBadgesFragment_resolved.
  unfold resolved, channelTable, globalTable. cbn [Badge.cache Badge.channels Badge.global].
  by rewrite Hb, lookup_singleton_eq.
Qed.

Lemma single_request_witness :
  let room := Js.lit "42" in
  let key := Js.lit "subscriber/6" in
  let body := [{| Badge.set_id := Js.lit "subscriber";
    Badge.versions := [{| Badge.v_id := Js.lit "6"; Badge.image_url_2x := None;
                          Badge.image_url_1x := Some (Js.lit "https://g/6.png") |}] |}] in
  let w := Badge.run (Js.lit "https://proxy") Badge.start
             [Badge.Call room; Badge.Settle 0 (Badge.Response true);
              Badge.Settle 0 (Badge.Body body); Badge.Settle 0 (Badge.Response false)] in
  Badge.fetches w = [Badge.GlobalBadges; Badge.ChannelBadges room]
  ∧ Badge.buildBadgesFragment (Badge.cache w) [key; Js.lit "vip/1"] room
    = [Js.lit "https://g/6.png"].
Proof.
  intros room key body w.
  destruct (single_request (Js.lit "https://proxy") room (Some body) None
              [key; Js.lit "vip/1"]) as [Hw Hf]; [reflexivity..|].
  cbv zeta in Hf. unfold w.
  change [Badge.Call room; Badge.Settle 0 (Badge.Response true);
          Badge.Settle 0 (Badge.Body body); Badge.Settle 0 (Badge.Response false)]
    with (Badge.Call room :: (Badge.Settle 0 <$> settlements (Some body))
          ++ (Badge.Settle 0 <$> settlements None)).
  split; [by rewrite Hw|].
  rewrite Hf. vm_compute. reflexivity.
Defined.

(** ** The stack of messages *)

Lemma trimStack_drop {A} max (stack : list A) :
  0 <= max →
  trimStack max stack = drop (length stack - Z.to_nat max) stack.
Proof.
  intros Hm. induction stack as [|x stack IH]; [done|].
  cbn [trimStack]. destruct (Z.ltb_spec max (Z.of_nat (length (x :: stack)))) as [H|H].
  - rewrite IH. cbn [length] in *.
    replace (S (length stack) - Z.to_nat max)%nat
      with (S (length stack - Z.to_nat max)) by lia.
    reflexivity.
  - cbn [length] in *.
    by replace (S (length stack) - Z.to_nat max)%nat with 0%nat by lia.
Qed.

(** X19: after [addMessage] has appended a message and trimmed the stack,
    the stack holds at most [max] messages; they are the newest ones, in
    their order, the new message last; nothing is removed while there is
    room. *)
Theorem appendMessage_bound {A} (max : Z) (stack : list A) (el : A) :
  1 <= max →
  (Z.of_nat (length (appendMessage max stack el)) <= max)
  ∧ (∃ removed, stack ++ [el] = removed ++ appendMessage max stack el
                ∧ length removed = (length stack + 1 - Z.to_nat max)%nat)
  ∧ last (appendMessage max stack el) = Some el
  ∧ (Z.of_nat (length stack) < max → appendMessage max stack el = stack ++ [el]).
Proof.
  intros Hm. unfold appendMessage. rewrite trimStack_drop by lia.
  rewrite length_app. cbn [length].
  set (k := (length stack + 1 - Z.to_nat max)%nat).
  assert (Hk : (k <= length stack)%nat) by lia.
  split; [rewrite length_drop, length_app; simpl; lia|].
  split.
  { exists (take k (stack ++ [el])). split; [by rewrite take_drop|].
    rewrite length_take, length_app. simpl. lia. }
  split.
  - rewrite drop_app_le by done. apply last_snoc.
  - intros Hlt. by replace k with 0%nat by lia.
Qed.

Lemma appendMessage_bound_witness :
  appendMessage 3 [1; 2; 3]%nat 4%nat = [2; 3; 4]%nat
  ∧ Z.of_nat (length (appendMessage 3 [1; 2; 3]%nat 4%nat)) <= 3.
Proof.
  split; [reflexivity|].
  apply (appendMessage_bound 3 [1; 2; 3]%nat 4%nat). lia.
Defined.

(** ** Instances *)

Lemma escapeHtml_injective_witness :
  escapeHtml (Js.lit "a<b&c") = Js.lit "a&lt;b&amp;c"
  ∧ Js.lit "a<b&c" = [97; 60; 98; 38; 99]%N.
Proof.
  split; [reflexivity|].
  apply (escapeHtml_injective (Js.lit "a<b&c") [97; 60; 98; 38; 99]%N).
  reflexivity.
Defined.

Lemma global_slot_final_witness :
  let room := Js.lit "42" in
  let proxy := Js.lit "https://proxy" in
  let es1 := [Badge.Call room; Badge.Settle 0 (Badge.Response false)] in
  let es2 := [Badge.Settle 0 (Badge.Response true); Badge.Call (Js.lit "7");
              Badge.Call room] in
  let w := Badge.run proxy Badge.start es1 in
  Badge.global (Badge.cache w) = Some ∅
  ∧ Badge.global (Badge.cache (Badge.run proxy w es2)) = Some ∅
  ∧ Badge.issued Badge.GlobalBadges (Badge.run proxy w es2) = 1%nat.
Proof.
  intros room proxy es1 es2 w.
  assert (Hg : Badge.global (Badge.cache w) = Some ∅) by (vm_compute; reflexivity).
  split; [exact Hg|].
  destruct (global_slot_final proxy es1 es2 ∅ Hg) as [H1 H2].
  split; [exact H1|]. fold w in H2. rewrite H2. vm_compute. reflexivity.
Defined.
